(** * Library synchronisation (lutris/sync.py): a shallow embedding

    The class [Sync] of [lutris/sync.py] reconciles the local game library
    with the remote catalog and with the Steam installations found on disk.
    The embedding follows the Python text: dictionaries are finite maps from
    field names to Python values, sets are finite sets, the [pga] store and
    the side effects are threaded through a state-and-exception monad. *)

From Stdlib Require Import ZArith String Ascii DecimalString.
From stdpp Require Import base option list gmap sets strings.

Local Open Scope Z_scope.
Local Open Scope string_scope.
Local Open Scope list_scope.

(** ** Python values *)

(** The values carried by library rows and catalog entries: [None],
    integers and strings. *)
Inductive pyval : Type :=
| VNone
| VInt (z : Z)
| VStr (s : string).

#[global] Instance pyval_eq_dec : EqDecision pyval.
Proof. solve_decision. Defined.

Definition pyval_to_sum (v : pyval) : unit + (Z + string) :=
  match v with
  | VNone => inl tt
  | VInt z => inr (inl z)
  | VStr s => inr (inr s)
  end.

Definition pyval_of_sum (x : unit + (Z + string)) : pyval :=
  match x with
  | inl _ => VNone
  | inr (inl z) => VInt z
  | inr (inr s) => VStr s
  end.

#[global] Instance pyval_countable : Countable pyval.
Proof.
  apply (inj_countable' pyval_to_sum pyval_of_sum).
  by intros [].
Defined.

Module Py.

(** [bool(v)]: [None], [0] and the empty string are false. *)
Definition truthy (v : pyval) : bool :=
  match v with
  | VNone => false
  | VInt z => negb (Z.eqb z 0)
  | VStr s => negb (String.eqb s "")
  end.

(** [str(v)]. *)
Definition str (v : pyval) : string :=
  match v with
  | VNone => "None"
  | VInt z => NilZero.string_of_int (Z.to_int z)
  | VStr s => s
  end.

(** [a > b] in Python 2: [None] is below every other value, integers are
    below strings, integers compare by value and strings
    lexicographically. *)
Definition gt (a b : pyval) : bool :=
  match a, b with
  | VNone, _ => false
  | _, VNone => true
  | VInt x, VInt y => Z.ltb y x
  | VInt _, VStr _ => false
  | VStr _, VInt _ => true
  | VStr s, VStr t =>
      match String.compare s t with Gt => true | _ => false end
  end.

(** [a == b]. *)
Definition eq (a b : pyval) : bool := bool_decide (a = b).

(** [a in l] for a list [l]. *)
Definition mem (a : pyval) (l : list pyval) : bool := existsb (eq a) l.

End Py.

Arguments Py.mem : simpl never.
Arguments Py.eq : simpl never.

(** A Python dictionary with string keys. *)
Abbreviation dict := (gmap string pyval).

(** [bool(d)] for a dictionary: empty dictionaries are false. *)
Definition dict_truthy (d : dict) : bool := negb (bool_decide (d = ∅)).

(** The keyword arguments [name=..., runner=..., slug=..., year=...,
    updated=..., steamid=...] as a dictionary. *)
Definition kwargs (name runner slug year updated steamid : pyval) : dict :=
  <["name" := name]> (<["runner" := runner]> (<["slug" := slug]>
    (<["year" := year]> (<["updated" := updated]>
      (<["steamid" := steamid]> ∅))))).

(** ** Collaborators *)

(** The persistence layer ([lutris.pga]) and the Steam helpers
    ([lutris.runners.steam]) are used through their calls only; the store
    they act on is a state [DB]. *)
Class Store (DB : Type) : Type := {
  (** [pga.get_games()] *)
  pga_get_games : DB → list dict;
  (** [pga.get_game_by_field(value, field)]; the empty dictionary when no
      row matches *)
  pga_get_game_by_field : DB → pyval → string → dict;
  (** [pga.add_games_bulk(games)] *)
  pga_add_games_bulk : DB → list dict → DB * list Z;
  (** [pga.add_or_update(name=..., runner=..., slug=..., ...)] *)
  pga_add_or_update : DB → dict → DB * Z;
  (** [steam.mark_as_installed(steamid, runner_name, game_info)] *)
  steam_mark_as_installed : DB → string → string → dict → DB * Z;
  (** [steam.mark_as_uninstalled(game_info)] *)
  steam_mark_as_uninstalled : DB → dict → DB * Z;
}.

(** The requests a pass sends to its collaborators, in program order. *)
Inductive event : Type :=
| EAddGamesBulk (games : list dict)
| EAddOrUpdate (kwargs : dict)
| EDownloadIcon (slug : pyval) (kind : string)
| EMarkAsInstalled (steamid runner_name : string) (game_info : dict)
| EMarkAsUninstalled (game_info : dict).

(** Python exceptions raised by the code of this module. *)
Inductive exn : Type :=
| KeyError (key : string)
| FetchError.

(** Modelled from the spec: an installation manifest as the scanner sees
    it ([lutris.util.steam.AppManifest]): the platform id and the
    installed flag. *)
Record AppManifest : Type := {
  appmanifest_steamid : string;
  appmanifest_is_installed : bool;
}.

(** Modelled from the spec: a runner object ([steam()] or [winesteam()],
    of [lutris.runners]) as a platform installation root: whether the
    runner is installed on the host and, for each of its [steamapps]
    directories, the manifests found there by [get_appmanifests]. *)
Record runner : Type := {
  is_installed : bool;
  get_steamapps_dirs : list (list AppManifest);
}.

(** ** The monad of a pass *)

Section sync.
Context {DB : Type} `{!Store DB}.

(** [self.library], the store and the requests sent so far. *)
Record world : Type := World {
  library : list dict;
  db : DB;
  trace : list event;
}.

Definition M (A : Type) : Type := world → exn + (A * world).

Definition ret {A} (a : A) : M A := λ w, inr (a, w).

Definition bind {A B} (m : M A) (k : A → M B) : M B :=
  λ w, match m w with
       | inl e => inl e
       | inr (a, w') => k a w'
       end.

Definition raise {A} (e : exn) : M A := λ _, inl e.

Notation "'do' x <- m ;; k" := (bind m (λ x, k))
  (at level 10, x name, m at level 99, k at level 200).

(** [d[key]] *)
Definition getitem (d : dict) (key : string) : M pyval :=
  match d !! key with
  | Some v => ret v
  | None => raise (KeyError key)
  end.

Definition emit (e : event) : M unit :=
  λ w, inr (tt, World (library w) (db w) (trace w ++ [e])).

Definition get_library_attr : M (list dict) := λ w, inr (library w, w).

Definition set_library_attr (l : list dict) : M unit :=
  λ w, inr (tt, World l (db w) (trace w)).

(** A call that reads the store. *)
Definition query {A} (f : DB → A) : M A := λ w, inr (f (db w), w).

(** A call that writes to the store; the request is recorded. *)
Definition request {A} (e : event) (f : DB → DB * A) : M A :=
  λ w, let '(d, a) := f (db w) in
       inr (a, World (library w) d (trace w ++ [e])).

(** [for x in l: acc = body(acc, x)] *)
Fixpoint for_each {A B} (l : list A) (body : B → A → M B) (acc : B) : M B :=
  match l with
  | [] => ret acc
  | x :: l' => do acc' <- body acc x ;; for_each l' body acc'
  end.

(** [[f(x) for x in l]] *)
Fixpoint comprehension {A B} (f : A → M B) (l : list A) : M (list B) :=
  match l with
  | [] => ret []
  | x :: l' => do y <- f x ;; do ys <- comprehension f l' ;; ret (y :: ys)
  end.

(** ** [Sync.sync_missing_games] *)

(** The record appended to [missing] for a remote game. *)
Definition missing_record (slug : pyval) (game : dict) : M dict :=
  do name <- getitem game "name" ;;
  do year <- getitem game "year" ;;
  do updated <- getitem game "updated" ;;
  do steamid <- getitem game "steamid" ;;
  ret (<["name" := name]> (<["slug" := slug]> (<["year" := year]>
        (<["updated" := updated]> (<["steamid" := steamid]> ∅))))).

(** The body of the loop over [remote_library] (lines 65 to 75); the
    accumulator is the list [missing]. *)
Definition missing_step (not_in_local : gset pyval)
    (missing : list dict) (game : dict) : M (list dict) :=
  do slug <- getitem game "slug" ;;
  if bool_decide (slug ∈ not_in_local) then
    do r <- missing_record slug game ;;
    ret (missing ++ [r])
  else ret missing.

Definition sync_missing_games (not_in_local : gset pyval)
    (remote_library : list dict) : M (gset Z) :=
  if bool_decide (not_in_local = ∅) then ret ∅
  else
    do missing <- for_each remote_library (missing_step not_in_local) [] ;;
    do missing_ids <- request (EAddGamesBulk missing)
                    (λ d, pga_add_games_bulk d missing) ;;
    ret (list_to_set missing_ids).

(** ** [Sync.sync_game_details] *)

(** One turn of the loop over [local_game.iteritems()]; the pair is
    [(sync, sync_icons)]. *)
Definition backfill_step (game : dict) (flags : bool * bool)
    (item : string * pyval) : bool * bool :=
  let '(key, value) := item in
  if Py.truthy value || negb (bool_decide (is_Some (game !! key)))
  then flags
  else match game !! key with
       | Some v => if Py.truthy v then (true, false) else flags
       | None => flags
       end.

(** The decision part of the loop body (lines 98 to 114), once the local
    game has been found. *)
Definition sync_flags (game local_game : dict) : M (bool * bool) :=
  do remote_updated <- getitem game "updated" ;;
  do local_updated <- getitem local_game "updated" ;;
  if Py.gt remote_updated local_updated then ret (true, true)
  else ret (foldl (backfill_step game) (false, true)
                  (map_to_list local_game)).

(** The keyword arguments of the call of [pga.add_or_update]. *)
Definition update_kwargs (slug : pyval) (game local_game : dict) : M dict :=
  do name <- getitem local_game "name" ;;
  do runner <- getitem local_game "runner" ;;
  do year <- getitem game "year" ;;
  do updated <- getitem game "updated" ;;
  do steamid <- getitem game "steamid" ;;
  ret (kwargs name runner slug year updated steamid).

(** The body of the loop over [remote_library] (lines 96 to 132); the
    accumulator is the set [updated]. *)
Definition details_step (updated : gset Z) (game : dict) : M (gset Z) :=
  do slug <- getitem game "slug" ;;
  do local_game <- query (λ d, pga_get_game_by_field d slug "slug") ;;
  if negb (dict_truthy local_game) then ret updated
  else
    do flags <- sync_flags game local_game ;;
    let '(sync, sync_icons) := flags in
    if negb sync then ret updated
    else
      do args <- update_kwargs slug game local_game ;;
      do game_id <- request (EAddOrUpdate args)
                  (λ d, pga_add_or_update d args) ;;
      if sync_icons then
        do _ <- emit (EDownloadIcon slug "banner") ;;
        do _ <- emit (EDownloadIcon slug "icon") ;;
        ret (updated ∪ {[game_id]})
      else ret updated.

Definition sync_game_details (remote_library : list dict) : M (gset Z) :=
  if bool_decide (remote_library = []) then ret ∅
  else for_each remote_library details_step ∅.

(** ** [Sync.get_installed_steamapps] *)

Definition get_installed_steamapps (r : runner) : list string :=
  if negb (is_installed r) then []
  else
    foldl (λ installed steamapps_path,
             foldl (λ installed appmanifest,
                      if appmanifest_is_installed appmanifest
                      then installed ++ [appmanifest_steamid appmanifest]
                      else installed)
                   installed steamapps_path)
          [] (get_steamapps_dirs r).

(** ** [Sync.sync_steam_local] *)

Definition mark_as_installed (steamid runner_name : string)
    (game_info : dict) : M Z :=
  request (EMarkAsInstalled steamid runner_name game_info)
          (λ d, steam_mark_as_installed d steamid runner_name game_info).

Definition mark_as_uninstalled (game_info : dict) : M Z :=
  request (EMarkAsUninstalled game_info)
          (λ d, steam_mark_as_uninstalled d game_info).

(** The body of the loop over [self.library]; the accumulator is
    [(installed, uninstalled)]. *)
Definition steam_local_step (steamrunner winesteamrunner : runner)
    (installed_steamapps installed_winesteamapps : list string)
    (acc : gset Z * gset Z) (game_info : dict) : M (gset Z * gset Z) :=
  let '(installed, uninstalled) := acc in
  do runner <- getitem game_info "runner" ;;
  do steamid_field <- getitem game_info "steamid" ;;
  let steamid := Py.str steamid_field in
  let installed_in_steam := bool_decide (steamid ∈ installed_steamapps) in
  let installed_in_winesteam :=
    bool_decide (steamid ∈ installed_winesteamapps) in
  do installed_field <- getitem game_info "installed" ;;
  if negb (Py.truthy installed_field) then
    if installed_in_steam then
      do game_id <- mark_as_installed steamid "steam" game_info ;;
      ret (installed ∪ {[game_id]}, uninstalled)
    else if installed_in_winesteam then
      do configpath <- getitem game_info "configpath" ;;
      if negb (Py.truthy configpath) then ret acc
      else
        do game_id <- mark_as_installed steamid "winesteam" game_info ;;
        ret (installed ∪ {[game_id]}, uninstalled)
    else ret acc
  else if negb (installed_in_steam || installed_in_winesteam) then
    if negb (Py.mem runner [VStr "steam"; VStr "winesteam"]) then ret acc
    else if Py.eq runner (VStr "steam") && negb (is_installed steamrunner)
    then ret acc
    else if Py.eq runner (VStr "winesteam")
            && negb (is_installed winesteamrunner)
    then ret acc
    else
      do game_id <- mark_as_uninstalled game_info ;;
      ret (installed, uninstalled ∪ {[game_id]})
  else ret acc.

Definition sync_steam_local (steamrunner winesteamrunner : runner)
    : M (gset Z * gset Z) :=
  let installed_steamapps := get_installed_steamapps steamrunner in
  let installed_winesteamapps :=
    get_installed_steamapps winesteamrunner in
  do library <- get_library_attr ;;
  for_each library
    (steam_local_step steamrunner winesteamrunner
       installed_steamapps installed_winesteamapps)
    (∅, ∅).

Definition sync_local (steamrunner winesteamrunner : runner)
    : M (gset Z * gset Z) :=
  sync_steam_local steamrunner winesteamrunner.

(** ** [Sync.sync_from_remote] *)

(** [api_get_library] is the outcome of the call [api.get_library()] of
    this pass: the catalog, or the exception it raised. *)
Definition sync_from_remote (api_get_library : exn + list dict)
    : M (gset Z * gset Z) :=
  do library <- get_library_attr ;;
  do local_slugs <- comprehension (λ game, getitem game "slug") library ;;
  let local_slugs : gset pyval := list_to_set local_slugs in
  let remote_library :=
    match api_get_library with
    | inr l => l
    | inl _ => []
    end in
  do remote_slugs <-
    comprehension (λ game, getitem game "slug") remote_library ;;
  let remote_slugs : gset pyval := list_to_set remote_slugs in
  let not_in_local := remote_slugs ∖ local_slugs in
  do added <- sync_missing_games not_in_local remote_library ;;
  do updated <- sync_game_details remote_library ;;
  do _ <- (if negb (bool_decide (added = ∅))
           then do l <- query pga_get_games ;; set_library_attr l
           else ret tt) ;;
  ret (added, updated).

(** ** [Sync.sync_all] *)

Definition sync_all (api_get_library : exn + list dict)
    (steamrunner winesteamrunner : runner)
    : M ((gset Z * gset Z) * (gset Z * gset Z)) :=
  do remote <- sync_from_remote api_get_library ;;
  do local <- sync_local steamrunner winesteamrunner ;;
  ret (remote, local).

(** [Sync()]: the library is read from the store once. *)
Definition Sync_init (d : DB) : world := World (pga_get_games d) d [].

End sync.

Arguments world DB : clear implicits.
Arguments M DB A : clear implicits.
Arguments get_installed_steamapps : clear implicits.

(** ** A store following the contract of the specification *)

Module LocalStore.

(** Modelled from the spec: the local store ([lutris.pga], not part of
    the sources at hand) as section 6 describes it: [list_entries],
    [find_by_slug], [insert_many], [upsert] keyed by slug,
    [mark_installed] and [mark_uninstalled]. The rows are kept in
    insertion order; every row carries the fields of a LibraryEntry
    (section 3), unset ones being [None], and its identifier under
    ["id"]. *)
Record t : Type := Build {
  next_id : Z;
  rows : list dict;
}.

(** The fields of a LibraryEntry, all unset. *)
Definition blank_row : dict :=
  list_to_map
    (map (λ k, (k, VNone))
         ["name"; "slug"; "runner"; "year"; "updated"; "steamid";
          "installed"; "configpath"]).

Definition row_id (row : dict) : Z :=
  match row !! "id" with
  | Some (VInt z) => z
  | _ => 0
  end.

Definition has_field (field : string) (value : pyval) (row : dict) : bool :=
  bool_decide (row !! field = Some value).

(** Modelled from the spec: [pga.get_games], the store's [list_entries]. *)
Definition get_games (d : t) : list dict := rows d.

(** Modelled from the spec: [pga.get_game_by_field], the store's
    [find_by_slug] for any field: the first row holding the value, or the
    empty dictionary. *)
Definition get_game_by_field (d : t) (value : pyval) (field : string)
    : dict :=
  default ∅ (List.find (has_field field value) (rows d)).

(** A new row under the next identifier. *)
Definition add_game (d : t) (fields : dict) : t * Z :=
  (Build (next_id d + 1)
         (rows d ++ [<["id" := VInt (next_id d)]> (fields ∪ blank_row)]),
   next_id d).

(** Modelled from the spec: [pga.add_games_bulk], the store's
    [insert_many]: one new row per record, in order; the new identifiers
    are returned. *)
Definition add_games_bulk (d : t) (games : list dict) : t * list Z :=
  foldl (λ acc game,
           let '(d', ids) := acc in
           let '(d'', i) := add_game d' game in
           (d'', ids ++ [i]))
        (d, []) games.

(** The first row with the given slug takes the new fields. *)
Fixpoint update_row (slug : pyval) (fields : dict) (l : list dict)
    : list dict :=
  match l with
  | [] => []
  | row :: l' =>
      if has_field "slug" slug row then (fields ∪ row) :: l'
      else row :: update_row slug fields l'
  end.

(** Modelled from the spec: [pga.add_or_update], the store's [upsert]
    keyed by slug: the identifier of the row updated, or of the row created
    when the slug is not there. *)
Definition add_or_update (d : t) (kwargs : dict) : t * Z :=
  let slug := default VNone (kwargs !! "slug") in
  match List.find (has_field "slug" slug) (rows d) with
  | Some row =>
      (Build (next_id d) (update_row slug kwargs (rows d)), row_id row)
  | None => add_game d kwargs
  end.

(** Modelled from the spec: [steam.mark_as_installed], the store's
    [mark_installed]: an upsert of the installed flag and of the runner for
    the slug of the entry. *)
Definition mark_as_installed (d : t) (steamid runner_name : string)
    (game_info : dict) : t * Z :=
  add_or_update d
    (<["slug" := default VNone (game_info !! "slug")]>
       (<["runner" := VStr runner_name]> (<["installed" := VInt 1]> ∅))).

(** Modelled from the spec: [steam.mark_as_uninstalled], the store's
    [mark_uninstalled]: an upsert of the installed flag for the slug of the
    entry. *)
Definition mark_as_uninstalled (d : t) (game_info : dict) : t * Z :=
  add_or_update d
    (<["slug" := default VNone (game_info !! "slug")]>
       (<["installed" := VInt 0]> ∅)).

#[global] Instance store : Store t := {
  pga_get_games := get_games;
  pga_get_game_by_field := get_game_by_field;
  pga_add_games_bulk := add_games_bulk;
  pga_add_or_update := add_or_update;
  steam_mark_as_installed := mark_as_installed;
  steam_mark_as_uninstalled := mark_as_uninstalled;
}.

(** A store holding the given entries, numbered from 1. *)
Definition of_entries (entries : list dict) : t :=
  (add_games_bulk (Build 1 []) entries).1.

(** The rows and the identifiers created for a batch, the first of them
    numbered [n]. *)
Fixpoint new_rows (n : Z) (games : list dict) : list dict :=
  match games with
  | [] => []
  | game :: games' =>
      <["id" := VInt n]> (game ∪ blank_row) :: new_rows (n + 1) games'
  end.

Fixpoint new_ids (n : Z) (games : list dict) : list Z :=
  match games with
  | [] => []
  | _ :: games' => n :: new_ids (n + 1) games'
  end.

(** The first row with a given slug. *)
Definition find_slug (slug : pyval) (l : list dict) : option dict :=
  List.find (has_field "slug" slug) l.


(** The slugs of the rows, in order. *)
Definition slug_column (l : list dict) : list (option pyval) :=
  (λ row : dict, row !! "slug") <$> l.

(** The update time stored for a slug. *)
Definition updated_at (l : list dict) (slug : pyval) : option pyval :=
  find_slug slug l ≫= λ row : dict, row !! "updated".

End LocalStore.

(** ** The update decision *)

(** The staleness rule: the remote entry is strictly newer. *)
Definition stale (game local_game : dict) : Prop :=
  ∃ ru lu, game !! "updated" = Some ru ∧ local_game !! "updated" = Some lu
           ∧ Py.gt ru lu = true.

(** The backfill rule: some field is empty locally and not remotely. *)
Definition backfillable (game local_game : dict) : Prop :=
  ∃ key lv rv, local_game !! key = Some lv ∧ Py.truthy lv = false
               ∧ game !! key = Some rv ∧ Py.truthy rv = true.

Definition backfills (game : dict) (item : string * pyval) : bool :=
  negb (Py.truthy item.2)
  && match game !! item.1 with
     | Some v => Py.truthy v
     | None => false
     end.

(** ** What one turn of the loop of [sync_game_details] does *)

Section outcomes.
Context {DB : Type} `{!Store DB}.
Implicit Types (w : world DB) (game local_game : dict) (updated : gset Z).

(** The world after the call of [pga.add_or_update] with [args] and the requests
    [evs] that follow it. *)
Definition after_update w (args : dict) (evs : list event) : world DB :=
  World (library w) (pga_add_or_update (db w) args).1
        (trace w ++ EAddOrUpdate args :: evs).

(** The world after the call of [pga.add_games_bulk] with [games]. *)
Definition after_insert w (games : list dict) : world DB :=
  World (library w) (pga_add_games_bulk (db w) games).1
        (trace w ++ [EAddGamesBulk games]).

(** The value returned by a run and the requests it sent, or nothing if it
    raised. *)
Definition outcome_of {A} (r : exn + (A * world DB))
    : option (A * list event) :=
  match r with
  | inr (a, w') => Some (a, trace w')
  | inl _ => None
  end.

(** The world a run ends in, or [w] if it raised. *)
Definition world_after {A} (r : exn + (A * world DB)) w : world DB :=
  match r with
  | inr (_, w') => w'
  | inl _ => w
  end.

Inductive details_outcome updated game w : gset Z → world DB → Prop :=
| details_not_local slug :
    game !! "slug" = Some slug →
    pga_get_game_by_field (db w) slug "slug" = ∅ →
    details_outcome updated game w updated w
| details_unchanged slug local_game ru lu :
    game !! "slug" = Some slug →
    pga_get_game_by_field (db w) slug "slug" = local_game →
    local_game ≠ ∅ →
    game !! "updated" = Some ru → local_game !! "updated" = Some lu →
    Py.gt ru lu = false → ¬ backfillable game local_game →
    details_outcome updated game w updated w
| details_staleness slug local_game ru lu name runner year steamid :
    game !! "slug" = Some slug →
    pga_get_game_by_field (db w) slug "slug" = local_game →
    local_game ≠ ∅ →
    game !! "updated" = Some ru → local_game !! "updated" = Some lu →
    Py.gt ru lu = true →
    local_game !! "name" = Some name →
    local_game !! "runner" = Some runner →
    game !! "year" = Some year → game !! "steamid" = Some steamid →
    let args := kwargs name runner slug year ru steamid in
    details_outcome updated game w
      (updated ∪ {[(pga_add_or_update (db w) args).2]})
      (after_update w args
         [EDownloadIcon slug "banner"; EDownloadIcon slug "icon"])
| details_backfill slug local_game ru lu name runner year steamid :
    game !! "slug" = Some slug →
    pga_get_game_by_field (db w) slug "slug" = local_game →
    local_game ≠ ∅ →
    game !! "updated" = Some ru → local_game !! "updated" = Some lu →
    Py.gt ru lu = false → backfillable game local_game →
    local_game !! "name" = Some name →
    local_game !! "runner" = Some runner →
    game !! "year" = Some year → game !! "steamid" = Some steamid →
    let args := kwargs name runner slug year ru steamid in
    details_outcome updated game w updated (after_update w args []).

End outcomes.

(** ** The conditions of the uninstall transition *)


(** The slug of a dictionary that has one. *)
Definition slug_of (game : dict) : pyval := default VNone (game !! "slug").

(** Its update time. *)
Definition updated_of (game : dict) : pyval :=
  default VNone (game !! "updated").

(** The record built for a remote game that carries the five fields. *)
Definition missing_record_of (game : dict) : dict :=
  <["name" := default VNone (game !! "name")]>
    (<["slug" := slug_of game]>
       (<["year" := default VNone (game !! "year")]>
          (<["updated" := updated_of game]>
             (<["steamid" := default VNone (game !! "steamid")]> ∅)))).

(** The remote entries whose slug is in [not_in_local]. *)
Definition missing_games (not_in_local : gset pyval) (remote : list dict)
    : list dict :=
  filter (λ game, slug_of game ∈ not_in_local) remote.

(** The remote entry is not newer than the row stored for its slug. *)
Definition not_stale (l : list dict) (game : dict) : Prop :=
  ∀ ru lu, game !! "updated" = Some ru →
           LocalStore.updated_at l (slug_of game) = Some lu →
           Py.gt ru lu = false.


(** ** Sample data *)

Definition entry (l : list (string * pyval)) : dict := list_to_map l.

(** A runner that is not installed, and Steam with the manifest of one
    installed application. *)
Definition absent_runner : runner :=
  {| is_installed := false; get_steamapps_dirs := [] |}.

Definition steam_with_220 : runner :=
  {| is_installed := true;
     get_steamapps_dirs :=
       [[{| appmanifest_steamid := "220";
            appmanifest_is_installed := true |}]] |}.

(** The local entry and the older remote entry of the staleness example. *)
Definition doom_local : dict :=
  entry [("slug", VStr "doom"); ("name", VStr "Doom"); ("updated", VInt 100);
         ("year", VInt 1993); ("runner", VStr "linux")].

Definition doom_remaster : dict :=
  entry [("slug", VStr "doom"); ("name", VStr "Doom (remaster)");
         ("updated", VInt 50); ("year", VInt 1993); ("steamid", VNone)].

(** The same local entry without a year. *)
Definition doom_no_year : dict :=
  entry [("slug", VStr "doom"); ("name", VStr "Doom"); ("updated", VInt 100);
         ("runner", VStr "linux")].

(** A newer remote entry. *)
Definition doom_newer : dict :=
  entry [("slug", VStr "doom"); ("name", VStr "Doom (remaster)");
         ("updated", VInt 150); ("year", VInt 1993); ("steamid", VNone)].

(** Two remote variants sharing a slug. *)
Definition quake_draft : dict :=
  entry [("slug", VStr "quake"); ("name", VStr "Quake (draft)");
         ("updated", VInt 3); ("year", VInt 1996); ("steamid", VNone)].

Definition quake_published : dict :=
  entry [("slug", VStr "quake"); ("name", VStr "Quake");
         ("updated", VInt 5); ("year", VInt 1996); ("steamid", VNone)].

(** A local entry run by another runner, not marked installed, whose
    platform id Steam reports as installed. *)
Definition hl2_linux : dict :=
  entry [("slug", VStr "half-life-2"); ("name", VStr "Half-Life 2");
         ("updated", VInt 10); ("year", VInt 2004); ("runner", VStr "linux");
         ("steamid", VInt 220); ("installed", VInt 0)].

(** An installed [winesteam] entry without a configuration path. *)
Definition hl2_winesteam : dict :=
  entry [("slug", VStr "half-life-2"); ("name", VStr "Half-Life 2");
         ("updated", VInt 10); ("year", VInt 2004);
         ("runner", VStr "winesteam"); ("steamid", VInt 220);
         ("installed", VInt 1); ("configpath", VNone)].

Definition winesteam_empty : runner :=
  {| is_installed := true; get_steamapps_dirs := [[]] |}.

(** A [Sync] object created over a store holding the given entries. *)
Definition sync_over (entries : list dict) : world LocalStore.t :=
  Sync_init (LocalStore.of_entries entries).

(** Two remote variants of Doom: the first older and with a year, the
    second newer and without. *)
Definition doom_variant_a : dict :=
  entry [("slug", VStr "doom"); ("name", VStr "Doom"); ("updated", VInt 5);
         ("year", VInt 1993); ("steamid", VNone)].

Definition doom_variant_b : dict :=
  entry [("slug", VStr "doom"); ("name", VStr "Doom"); ("updated", VInt 7);
         ("year", VNone); ("steamid", VNone)].

(** A full sync with Steam reporting application 220 and no catalog, on a
    library holding Half-Life 2 not marked installed. *)
Definition hl2_pass (w : world LocalStore.t)
    : exn + ((gset Z * gset Z) * (gset Z * gset Z) * world LocalStore.t) :=
  sync_all (inr []) steam_with_220 absent_runner w.

(** A full sync over the two variants of Doom. *)
Definition doom_variants_pass (w : world LocalStore.t)
    : exn + ((gset Z * gset Z) * (gset Z * gset Z) * world LocalStore.t) :=
  sync_all (inr [doom_variant_a; doom_variant_b]) absent_runner absent_runner
    w.

(** A full sync over a catalog with a newer Doom and a new game. *)
Definition catalog_pass (w : world LocalStore.t)
    : exn + ((gset Z * gset Z) * (gset Z * gset Z) * world LocalStore.t) :=
  sync_all (inr [doom_newer; quake_published]) steam_with_220 absent_runner
    w.

(** The row of Half-Life 2 as the store returns it. *)
Definition hl2_row (entry : dict) : dict :=
  pga_get_game_by_field (db (sync_over [entry])) (VStr "half-life-2") "slug".

(** The arguments of the update of the Doom entry from a remote entry
    updated at [ru]. *)
Definition doom_args (ru : Z) : dict :=
  kwargs (VStr "Doom") (VStr "linux") (VStr "doom") (VInt 1993) (VInt ru)
         VNone.

(** ** Notions for the remaining behaviour *)

(** The ids of the manifests marked installed, over all the directories of
    a runner, in order. *)
Definition installed_manifest_ids (r : runner) : list string :=
  appmanifest_steamid
    <$> filter (λ m, appmanifest_is_installed m = true)
          (concat (get_steamapps_dirs r)).

(** The conditions of the install transition under the runner name
    [runner_name]: the entry is not marked installed and Steam reports its
    id, or Wine Steam alone reports it and the entry has a configuration
    path. *)
Definition install_conditions (steamrunner winesteamrunner : runner)
    (runner_name : string) (game_info : dict) : Prop :=
  ∃ r sid inst,
    game_info !! "runner" = Some r
    ∧ game_info !! "steamid" = Some sid
    ∧ game_info !! "installed" = Some inst
    ∧ Py.truthy inst = false
    ∧ ((runner_name = "steam"
        ∧ Py.str sid ∈ get_installed_steamapps steamrunner)
       ∨ (runner_name = "winesteam"
          ∧ (Py.str sid ∉ get_installed_steamapps steamrunner)
          ∧ Py.str sid ∈ get_installed_steamapps winesteamrunner
          ∧ ∃ configpath, game_info !! "configpath" = Some configpath
                          ∧ Py.truthy configpath = true)).

(** The conditions under which the body of the loop of [sync_steam_local]
    raises [KeyError key]. *)
Definition steam_local_key_error (steamrunner winesteamrunner : runner)
    (game_info : dict) (key : string) : Prop :=
  (game_info !! "runner" = None ∧ key = "runner")
  ∨ (is_Some (game_info !! "runner") ∧ game_info !! "steamid" = None
     ∧ key = "steamid")
  ∨ (is_Some (game_info !! "runner") ∧ is_Some (game_info !! "steamid")
     ∧ game_info !! "installed" = None ∧ key = "installed")
  ∨ (∃ sid inst,
       is_Some (game_info !! "runner")
       ∧ game_info !! "steamid" = Some sid
       ∧ game_info !! "installed" = Some inst
       ∧ Py.truthy inst = false
       ∧ (Py.str sid ∉ get_installed_steamapps steamrunner)
       ∧ Py.str sid ∈ get_installed_steamapps winesteamrunner
       ∧ game_info !! "configpath" = None ∧ key = "configpath").

(** A request of [sync_steam_local] about a row of [l]. *)
Definition mark_event_of (l : list dict) (e : event) : Prop :=
  match e with
  | EMarkAsInstalled _ runner_name game_info =>
      game_info ∈ l ∧ (runner_name = "steam" ∨ runner_name = "winesteam")
  | EMarkAsUninstalled game_info => game_info ∈ l
  | _ => False
  end.

(** A request of [sync_game_details] about an entry of [remote]. *)
Definition details_event_of (remote : list dict) (e : event) : Prop :=
  match e with
  | EAddOrUpdate args =>
      ∃ game slug, game ∈ remote ∧ game !! "slug" = Some slug
                   ∧ args !! "slug" = Some slug
  | EDownloadIcon slug kind =>
      (∃ game, game ∈ remote ∧ game !! "slug" = Some slug)
      ∧ (kind = "banner" ∨ kind = "icon")
  | _ => False
  end.

Definition is_download_icon (e : event) : Prop :=
  match e with
  | EDownloadIcon _ _ => True
  | _ => False
  end.

(** The catalog a pass works on: empty when the fetch raised. *)
Definition catalog_of (api_get_library : exn + list dict) : list dict :=
  match api_get_library with
  | inr l => l
  | inl _ => []
  end.

(** The remote entry carries the fields copied into an insert record. *)
Definition has_record_fields (game : dict) : Prop :=
  is_Some (game !! "name") ∧ is_Some (game !! "year")
  ∧ is_Some (game !! "updated") ∧ is_Some (game !! "steamid").

(** The record [r] copies the five fields of [game] and has no other. *)
Definition copies_remote_fields (r game : dict) : Prop :=
  is_Some (game !! "slug")
  ∧ has_record_fields game
  ∧ r !! "name" = game !! "name" ∧ r !! "slug" = game !! "slug"
  ∧ r !! "year" = game !! "year" ∧ r !! "updated" = game !! "updated"
  ∧ r !! "steamid" = game !! "steamid"
  ∧ ∀ key, is_Some (r !! key) →
      key ∈ ["name"; "slug"; "year"; "updated"; "steamid"].

Section marks.
Context {DB : Type} `{!Store DB}.

(** The world after the call of [steam.mark_as_installed], and after the
    call of [steam.mark_as_uninstalled]. *)
Definition after_mark_installed (w : world DB) (steamid runner_name : string)
    (game_info : dict) : world DB :=
  World (library w)
        (steam_mark_as_installed (db w) steamid runner_name game_info).1
        (trace w ++ [EMarkAsInstalled steamid runner_name game_info]).

Definition after_mark_uninstalled (w : world DB) (game_info : dict)
    : world DB :=
  World (library w) (steam_mark_as_uninstalled (db w) game_info).1
        (trace w ++ [EMarkAsUninstalled game_info]).

End marks.

(** The conditions under which the body of the loop of
    [sync_game_details] raises [KeyError key], [local_game] being what the
    store returns for the slug of [game]. *)
Definition details_key_error (game local_game : dict) (key : string)
    : Prop :=
  (game !! "slug" = None ∧ key = "slug")
  ∨ (is_Some (game !! "slug") ∧ local_game ≠ ∅
     ∧ ((key = "updated"
         ∧ (game !! "updated" = None ∨ local_game !! "updated" = None))
        ∨ (∃ ru lu,
             game !! "updated" = Some ru ∧ local_game !! "updated" = Some lu
             ∧ (Py.gt ru lu = true ∨ backfillable game local_game)
             ∧ ((local_game !! "name" = None ∧ key = "name")
                ∨ (is_Some (local_game !! "name")
                   ∧ local_game !! "runner" = None ∧ key = "runner")
                ∨ (is_Some (local_game !! "name")
                   ∧ is_Some (local_game !! "runner")
                   ∧ game !! "year" = None ∧ key = "year")
                ∨ (is_Some (local_game !! "name")
                   ∧ is_Some (local_game !! "runner")
                   ∧ is_Some (game !! "year")
                   ∧ game !! "steamid" = None ∧ key = "steamid"))))).

(** Further sample runs: the installation pass over Half-Life 2, the
    update of Doom, the remote pass over a newer Doom and a new game, and a
    [Sync] object whose library holds a row without slug. *)
Definition hl2_steam_local (w : world LocalStore.t)
    : exn + ((gset Z * gset Z) * world LocalStore.t) :=
  sync_steam_local steam_with_220 absent_runner w.

Definition doom_details (w : world LocalStore.t)
    : exn + (gset Z * world LocalStore.t) :=
  sync_game_details [doom_newer] w.

Definition catalog_remote (w : world LocalStore.t)
    : exn + ((gset Z * gset Z) * world LocalStore.t) :=
  sync_from_remote (inr [doom_newer; quake_published]) w.

Definition slugless_library : world LocalStore.t :=
  World [entry [("name", VStr "Doom")]] (LocalStore.of_entries []) [].

(** The row carries the three fields every turn of the loop of
    [sync_steam_local] reads. *)
Definition has_state_fields (game_info : dict) : Prop :=
  is_Some (game_info !! "runner") ∧ is_Some (game_info !! "steamid")
  ∧ is_Some (game_info !! "installed").

(** A request of [sync_steam_local] about the row [game_info]. *)
Definition mark_event_for (game_info : dict) (e : event) : Prop :=
  match e with
  | EMarkAsInstalled _ runner_name g =>
      g = game_info ∧ (runner_name = "steam" ∨ runner_name = "winesteam")
  | EMarkAsUninstalled g => g = game_info
  | _ => False
  end.

(** * Properties *)

Section decision.
Context {DB : Type} `{!Store DB}.

Lemma backfill_step_backfills game flags item :
  backfill_step game flags item
  = if backfills game item then (true, false) else flags.
Proof.
  destruct item as [key value]. unfold backfill_step, backfills. simpl.
  destruct (Py.truthy value); simpl; [done|].
  by destruct (game !! key) as [v|].
Qed.

Lemma foldl_backfill_step game l flags :
  foldl (backfill_step game) flags l
  = if existsb (backfills game) l then (true, false) else flags.
Proof.
  revert flags. induction l as [|item l IH]; intros flags; simpl; [done|].
  rewrite IH, backfill_step_backfills.
  destruct (backfills game item); simpl; [|done].
  by destruct (existsb _ l).
Qed.

Lemma existsb_backfills game local_game :
  existsb (backfills game) (map_to_list local_game) = true
  ↔ backfillable game local_game.
Proof.
  rewrite existsb_exists. split.
  - intros [[key lv] [Hin Hb]]. apply list_elem_of_In in Hin.
    apply elem_of_map_to_list in Hin.
    unfold backfills in Hb. simpl in Hb.
    apply andb_true_iff in Hb as [Hl Hr].
    destruct (game !! key) as [rv|] eqn:Hg; [|done].
    exists key, lv, rv. by rewrite negb_true_iff in Hl.
  - intros (key & lv & rv & Hl & Hlv & Hg & Hrv).
    exists (key, lv). split.
    + apply list_elem_of_In. by apply elem_of_map_to_list.
    + unfold backfills. simpl. by rewrite Hlv, Hg, Hrv.
Qed.

Lemma sync_flags_eq game local_game ru lu (w : world DB) :
  game !! "updated" = Some ru → local_game !! "updated" = Some lu →
  sync_flags game local_game w
  = inr (if Py.gt ru lu then (true, true)
         else if existsb (backfills game) (map_to_list local_game)
              then (true, false) else (false, true), w).
Proof.
  intros Hg Hl. unfold sync_flags, bind, getitem. rewrite Hg. simpl.
  rewrite Hl. simpl. destruct (Py.gt ru lu); [done|].
  by rewrite foldl_backfill_step.
Qed.

End decision.

Section details.
Context {DB : Type} `{!Store DB}.
Implicit Types (w : world DB) (game local_game : dict) (updated : gset Z).

Lemma getitem_inv (d : dict) key w v w' :
  getitem d key w = inr (v, w') → d !! key = Some v ∧ w' = w.
Proof.
  unfold getitem. destruct (d !! key); unfold ret, raise; naive_solver.
Qed.

Lemma update_kwargs_inv slug game local_game w args w' :
  update_kwargs slug game local_game w = inr (args, w') →
  ∃ name runner year ru steamid,
    local_game !! "name" = Some name ∧ local_game !! "runner" = Some runner
    ∧ game !! "year" = Some year ∧ game !! "updated" = Some ru
    ∧ game !! "steamid" = Some steamid
    ∧ args = kwargs name runner slug year ru steamid ∧ w' = w.
Proof.
  unfold update_kwargs, bind, getitem, ret, raise. intros Hu.
  repeat case_match; simplify_eq. naive_solver.
Qed.

Lemma details_step_inv updated game w updated' w' :
  details_step updated game w = inr (updated', w') →
  details_outcome updated game w updated' w'.
Proof.
  unfold details_step, bind. intros Hs.
  destruct (getitem game "slug" w) as [|[slug w1]] eqn:Hslug; [done|].
  apply getitem_inv in Hslug as [Hslug ->].
  unfold query in Hs.
  set (local_game := pga_get_game_by_field (db w) slug "slug") in *.
  unfold dict_truthy in Hs. rewrite negb_involutive in Hs.
  case_bool_decide as Hloc.
  { unfold ret in Hs. simplify_eq. by eapply details_not_local. }
  destruct (game !! "updated") as [ru|] eqn:Hru;
    [|by unfold sync_flags, bind, getitem in Hs; rewrite Hru in Hs].
  destruct (local_game !! "updated") as [lu|] eqn:Hlu;
    [|by unfold sync_flags, bind, getitem, ret in Hs;
         rewrite Hru, Hlu in Hs].
  rewrite (sync_flags_eq _ _ ru lu) in Hs by done.
  destruct (Py.gt ru lu) eqn:Hgt; simpl in Hs.
  - destruct (update_kwargs slug game local_game w) as [|[args w1]] eqn:Hk;
      [done|].
    apply update_kwargs_inv in Hk
      as (name & runner & year & upd & steamid & ? & ? & ? & Hu & ? & -> & ->).
    rewrite Hru in Hu. injection Hu as <-.
    unfold request, emit, ret in Hs. simpl in Hs.
    destruct (pga_add_or_update (db w) _) as [d' game_id] eqn:Hreq.
    simpl in Hs. injection Hs as <- <-. rewrite <- !app_assoc. simpl.
    pose proof (details_staleness updated game w slug local_game ru lu name runner
                  year steamid) as Ho.
    unfold after_update in Ho. rewrite Hreq in Ho. simpl in Ho.
    by apply Ho.
  - destruct (existsb _ _) eqn:Hex; simpl in Hs.
    + apply existsb_backfills in Hex.
      destruct (update_kwargs slug game local_game w) as [|[args w1]] eqn:Hk;
        [done|].
      apply update_kwargs_inv in Hk
        as (name & runner & year & upd & steamid & ? & ? & ? & Hu & ? & -> & ->).
      rewrite Hru in Hu. injection Hu as <-.
      unfold request, emit, ret in Hs. simpl in Hs.
      destruct (pga_add_or_update (db w) _) as [d' game_id] eqn:Hreq.
      simpl in Hs. injection Hs as <- <-.
      pose proof (details_backfill updated game w slug local_game ru lu name runner
                    year steamid) as Ho.
      unfold after_update in Ho. rewrite Hreq in Ho. simpl in Ho.
      by apply Ho.
    + unfold ret in Hs. injection Hs as <- <-.
      apply (details_unchanged updated game w slug local_game ru lu);
        try done.
      intros Hb. apply existsb_backfills in Hb. congruence.
Qed.

End details.

Section details_converse.
Context {DB : Type} `{!Store DB}.
Implicit Types (w : world DB) (game local_game : dict) (updated : gset Z).

Lemma getitem_Some (d : dict) key v w :
  d !! key = Some v → getitem d key w = inr (v, w).
Proof. unfold getitem. by intros ->. Qed.

Lemma update_kwargs_Some slug game local_game w name runner year ru steamid :
  local_game !! "name" = Some name → local_game !! "runner" = Some runner →
  game !! "year" = Some year → game !! "updated" = Some ru →
  game !! "steamid" = Some steamid →
  update_kwargs slug game local_game w
  = inr (kwargs name runner slug year ru steamid, w).
Proof.
  intros Hn Hr Hy Hu Hs. unfold update_kwargs, bind.
  by rewrite (getitem_Some _ _ _ _ Hn), (getitem_Some _ _ _ _ Hr),
    (getitem_Some _ _ _ _ Hy), (getitem_Some _ _ _ _ Hu),
    (getitem_Some _ _ _ _ Hs).
Qed.

Lemma details_outcome_step updated game w updated' w' :
  details_outcome updated game w updated' w' →
  details_step updated game w = inr (updated', w').
Proof.
  intros Ho. unfold details_step, bind, query, dict_truthy.
  destruct Ho as [slug Hslug Hloc
                 |slug local_game ru lu Hslug Hloc Hne Hru Hlu Hgt Hb
                 |slug local_game ru lu name runner year steamid
                    Hslug Hloc Hne Hru Hlu Hgt Hn Hr Hy Hst
                 |slug local_game ru lu name runner year steamid
                    Hslug Hloc Hne Hru Hlu Hgt Hb Hn Hr Hy Hst];
    rewrite (getitem_Some _ _ _ _ Hslug), Hloc.
  - by rewrite bool_decide_eq_true_2.
  - rewrite bool_decide_eq_false_2 by done. simpl.
    rewrite (sync_flags_eq _ _ ru lu), Hgt by done.
    destruct (existsb _ _) eqn:Hex; [|done].
    by apply existsb_backfills in Hex.
  - rewrite bool_decide_eq_false_2 by done. simpl.
    rewrite (sync_flags_eq _ _ ru lu), Hgt by done. simpl.
    rewrite (update_kwargs_Some _ _ _ _ name runner year ru steamid) by done.
    unfold request, emit, ret, after_update.
    destruct (pga_add_or_update _ _) as [d' i]. simpl.
    by rewrite <- !app_assoc.
  - rewrite bool_decide_eq_false_2 by done. simpl.
    rewrite (sync_flags_eq _ _ ru lu), Hgt by done.
    apply existsb_backfills in Hb. rewrite Hb. simpl.
    rewrite (update_kwargs_Some _ _ _ _ name runner year ru steamid) by done.
    unfold request, ret, after_update.
    by destruct (pga_add_or_update _ _) as [d' i].
Qed.

End details_converse.

(** ** The update decision and its consequences *)

Section remote_reconciler.
Context {DB : Type} `{!Store DB}.
Implicit Types (w : world DB) (game local_game : dict) (updated : gset Z).


(** C3: in a turn of the loop that returns, the media refresh is requested
    for a slug and a kind exactly when the slug is the one of the remote
    entry, the kind is the banner or the icon, the entry is found locally
    and the staleness rule holds for it; a backfill update and an entry left
    alone request none. *)
Theorem media_refresh_iff_stale updated game slug w updated' w' :
  details_step updated game w = inr (updated', w') →
  game !! "slug" = Some slug →
  ∃ evs, trace w' = trace w ++ evs
    ∧ ∀ s kind,
        EDownloadIcon s kind ∈ evs ↔
          s = slug ∧ (kind = "banner" ∨ kind = "icon")
          ∧ dict_truthy (pga_get_game_by_field (db w) slug "slug") = true
          ∧ stale game (pga_get_game_by_field (db w) slug "slug").
Proof.
  intros Hstep Hslug. apply details_step_inv in Hstep.
  assert (∀ d : dict, d ≠ ∅ → dict_truthy d = true) as Ht.
  { intros d Hd. unfold dict_truthy. by rewrite bool_decide_eq_false_2. }
  destruct Hstep as [slug' Hslug' Hloc
                 |slug' local_game ru lu Hslug' Hloc Hne Hru Hlu Hgt Hb
                 |slug' local_game ru lu name runner year steamid
                    Hslug' Hloc Hne Hru Hlu Hgt Hn Hr Hy Hst
                 |slug' local_game ru lu name runner year steamid
                    Hslug' Hloc Hne Hru Hlu Hgt Hb Hn Hr Hy Hst];
    simplify_eq.
  - exists []. split; [by rewrite app_nil_r|]. intros s kind.
    rewrite Hloc. split; [by intros ?%elem_of_nil|].
    by intros (_ & _ & ? & _).
  - exists []. split; [by rewrite app_nil_r|]. intros s kind.
    split; [by intros ?%elem_of_nil|].
    intros (_ & _ & _ & (ru' & lu' & ? & ? & ?)). congruence.
  - eexists. split; [done|]. intros s kind.
    rewrite !elem_of_cons, elem_of_nil. split.
    + intros [?|[?|[?|[]]]]; simplify_eq;
        (split_and!; [done|by eauto|by apply Ht|by exists ru, lu]).
    + intros (-> & [-> | ->] & _); eauto.
  - eexists. split; [done|]. intros s kind.
    rewrite !elem_of_cons, elem_of_nil. split.
    + by intros [?|[]].
    + intros (_ & _ & _ & (ru' & lu' & ? & ? & ?)). congruence.
Qed.

(** C10: every call of [pga.add_or_update] made by the loop body, on either
    path, passes the name and the runner of the local entry and the slug,
    year, update time and platform id of the remote entry, and nothing
    else; the remote name is not passed. *)
Theorem update_keeps_local_name_and_runner updated game w updated' w' evs args :
  details_step updated game w = inr (updated', w') →
  trace w' = trace w ++ evs →
  EAddOrUpdate args ∈ evs →
  ∃ slug local_game,
    game !! "slug" = Some slug
    ∧ local_game = pga_get_game_by_field (db w) slug "slug"
    ∧ args !! "name" = local_game !! "name"
    ∧ args !! "runner" = local_game !! "runner"
    ∧ args !! "slug" = Some slug
    ∧ args !! "year" = game !! "year"
    ∧ args !! "updated" = game !! "updated"
    ∧ args !! "steamid" = game !! "steamid"
    ∧ ∀ key, is_Some (args !! key) →
        key ∈ ["name"; "runner"; "slug"; "year"; "updated"; "steamid"].
Proof.
  intros Hstep Htr Hin. apply details_step_inv in Hstep.
  assert (∀ name runner slug year ru steamid key,
            is_Some (kwargs name runner slug year ru steamid !! key) →
            key ∈ ["name"; "runner"; "slug"; "year"; "updated"; "steamid"])
    as Hdom.
  { intros name runner slug year ru steamid key. unfold kwargs.
    rewrite !lookup_insert_is_Some', lookup_empty, !elem_of_cons.
    intros Hk. destruct_or!; eauto 10. by apply is_Some_None in Hk. }
  destruct Hstep as [slug' Hslug' Hloc
                 |slug' local_game ru lu Hslug' Hloc Hne Hru Hlu Hgt Hb
                 |slug' local_game ru lu name runner year steamid
                    Hslug' Hloc Hne Hru Hlu Hgt Hn Hr Hy Hst
                 |slug' local_game ru lu name runner year steamid
                    Hslug' Hloc Hne Hru Hlu Hgt Hb Hn Hr Hy Hst].
  - rewrite <- (app_nil_r (trace w)) in Htr at 1.
    apply app_inv_head in Htr as <-. by apply elem_of_nil in Hin.
  - rewrite <- (app_nil_r (trace w)) in Htr at 1.
    apply app_inv_head in Htr as <-. by apply elem_of_nil in Hin.
  - unfold after_update in Htr. simpl in Htr.
    apply app_inv_head in Htr as <-.
    rewrite !elem_of_cons, elem_of_nil in Hin.
    destruct Hin as [Heq|[?|[?|[]]]]; try done. injection Heq as ->.
    exists slug', local_game. rewrite Hn, Hr, Hy, Hru, Hst.
    split_and!; try done. apply Hdom.
  - unfold after_update in Htr. simpl in Htr.
    apply app_inv_head in Htr as <-.
    rewrite !elem_of_cons, elem_of_nil in Hin.
    destruct Hin as [Heq|[]]. injection Heq as ->.
    exists slug', local_game. rewrite Hn, Hr, Hy, Hru, Hst.
    split_and!; try done. apply Hdom.
Qed.

End remote_reconciler.


(** ** The installation-state reconciler *)

Section steam_local.
Context {DB : Type} `{!Store DB}.
Implicit Types (w : world DB) (game_info : dict) (acc : gset Z * gset Z).


(** The loop body, with the tests on the runner gathered in one place. *)
Lemma steam_local_step_uninstall steamrunner winesteamrunner
    steamapps winesteamapps installed uninstalled game_info w r sid inst :
  game_info !! "runner" = Some r →
  game_info !! "steamid" = Some sid →
  game_info !! "installed" = Some inst →
  Py.truthy inst = true →
  steam_local_step steamrunner winesteamrunner steamapps winesteamapps
    (installed, uninstalled) game_info w
  = if negb (bool_decide (Py.str sid ∈ steamapps)
             || bool_decide (Py.str sid ∈ winesteamapps))
       && (if negb (Py.mem r [VStr "steam"; VStr "winesteam"]) then false
           else if Py.eq r (VStr "steam") && negb (is_installed steamrunner)
           then false
           else if Py.eq r (VStr "winesteam")
                   && negb (is_installed winesteamrunner)
           then false
           else true)
    then inr ((installed,
               uninstalled ∪ {[(steam_mark_as_uninstalled (db w) game_info).2]}),
              World (library w) (steam_mark_as_uninstalled (db w) game_info).1
                    (trace w ++ [EMarkAsUninstalled game_info]))
    else inr ((installed, uninstalled), w).
Proof.
  intros Hr Hs Hi Ht. unfold steam_local_step, bind, getitem.
  rewrite Hr, Hs, Hi. simpl. rewrite Ht. simpl.
  destruct (negb (_ || _)); simpl; [|done].
  destruct (negb (Py.mem _ _)); [done|].
  destruct (_ && _); [done|]. destruct (_ && _); [done|].
  unfold mark_as_uninstalled, request, ret.
  by destruct (steam_mark_as_uninstalled _ _).
Qed.

Lemma steam_local_step_not_installed steamrunner winesteamrunner
    steamapps winesteamapps acc game_info w r sid inst acc' w' :
  game_info !! "runner" = Some r →
  game_info !! "steamid" = Some sid →
  game_info !! "installed" = Some inst →
  Py.truthy inst = false →
  steam_local_step steamrunner winesteamrunner steamapps winesteamapps
    acc game_info w = inr (acc', w') →
  (acc' = acc ∧ w' = w)
  ∨ ∃ runner_name,
      acc' = (acc.1 ∪ {[(steam_mark_as_installed (db w) (Py.str sid)
                           runner_name game_info).2]}, acc.2)
      ∧ w' = World (library w)
                   (steam_mark_as_installed (db w) (Py.str sid)
                      runner_name game_info).1
                   (trace w ++ [EMarkAsInstalled (Py.str sid) runner_name
                                  game_info]).
Proof.
  intros Hr Hs Hi Ht. unfold steam_local_step, bind, getitem.
  destruct acc as [installed uninstalled].
  rewrite Hr, Hs, Hi. simpl. rewrite Ht. simpl.
  unfold mark_as_installed, request, ret, raise.
  repeat case_match; intros; simplify_eq; eauto;
    right; eexists; match goal with H : _ = (_, _) |- _ => by rewrite H end.
Qed.

Lemma steam_local_step_keys steamrunner winesteamrunner
    steamapps winesteamapps acc game_info w acc' w' :
  steam_local_step steamrunner winesteamrunner steamapps winesteamapps
    acc game_info w = inr (acc', w') →
  ∃ r sid inst,
    game_info !! "runner" = Some r ∧ game_info !! "steamid" = Some sid
    ∧ game_info !! "installed" = Some inst.
Proof.
  unfold steam_local_step, bind, getitem, raise. destruct acc as [i u].
  destruct (game_info !! "runner") as [r|]; simpl; [|done].
  destruct (game_info !! "steamid") as [sid|]; simpl; [|done].
  destruct (game_info !! "installed") as [inst|]; simpl; [|done].
  intros _. by exists r, sid, inst.
Qed.

Lemma trace_extension_nil (l evs : list event) : l = l ++ evs → evs = [].
Proof.
  intros Heq. rewrite <- (app_nil_r l) in Heq at 1.
  by apply app_inv_head in Heq.
Qed.



(** C5 (amended): for an entry whose runner is neither [steam] nor
    [winesteam] the loop body makes no uninstall transition; if the entry is
    marked installed it makes no transition and sends no request at all. *)
Theorem unsupported_runner_not_uninstalled steamrunner winesteamrunner
    steamapps winesteamapps acc game_info w r acc' w' evs :
  game_info !! "runner" = Some r →
  Py.mem r [VStr "steam"; VStr "winesteam"] = false →
  steam_local_step steamrunner winesteamrunner steamapps winesteamapps
    acc game_info w = inr (acc', w') →
  trace w' = trace w ++ evs →
  acc'.2 = acc.2
  ∧ (∀ g, EMarkAsUninstalled g ∉ evs)
  ∧ (∀ inst, game_info !! "installed" = Some inst →
       Py.truthy inst = true → acc' = acc ∧ w' = w).
Proof.
  intros Hr Hmem Hstep Htr.
  destruct (steam_local_step_keys _ _ _ _ _ _ _ _ _ Hstep)
    as (r' & sid & inst & Hr' & Hs & Hi).
  assert (r' = r) as -> by congruence.
  destruct (Py.truthy inst) eqn:Ht.
  - destruct acc as [installed uninstalled].
    rewrite (steam_local_step_uninstall _ _ _ _ _ _ _ _ r sid inst)
      in Hstep by done.
    rewrite Hmem in Hstep. simpl in Hstep. rewrite andb_false_r in Hstep.
    injection Hstep as <- <-. apply trace_extension_nil in Htr as ->.
    split_and!; [done|by intros g ?%elem_of_nil|done].
  - destruct (steam_local_step_not_installed _ _ _ _ _ _ _ r sid inst
                _ _ Hr Hs Hi Ht Hstep) as [[-> ->]|(rn & -> & ->)].
    + apply trace_extension_nil in Htr as ->.
      split_and!; [done|by intros g ?%elem_of_nil|congruence].
    + simpl in Htr. apply app_inv_head in Htr as <-.
      split_and!; [done|by intros g ?%list_elem_of_singleton|congruence].
Qed.

End steam_local.


(** ** Fetch failures and the batch of missing games *)

Section missing.
Context {DB : Type} `{!Store DB}.
Implicit Types (w : world DB) (game : dict).

Lemma slug_of_Some game slug : game !! "slug" = Some slug → slug_of game = slug.
Proof. unfold slug_of. by intros ->. Qed.

Lemma comprehension_slug (l : list dict) w :
  Forall (λ game, is_Some (game !! "slug")) l →
  comprehension (λ game, getitem game "slug") l w = inr (slug_of <$> l, w).
Proof.
  induction 1 as [|game l [slug Hslug] _ IH]; [done|].
  simpl. unfold bind. rewrite (getitem_Some _ _ _ _ Hslug), IH.
  by rewrite (slug_of_Some _ _ Hslug).
Qed.

Lemma comprehension_slug_inv (l : list dict) w slugs w' :
  comprehension (λ game, getitem game "slug") l w = inr (slugs, w') →
  Forall (λ game, is_Some (game !! "slug")) l
  ∧ slugs = slug_of <$> l ∧ w' = w.
Proof.
  revert slugs w'. induction l as [|game l IH]; intros slugs w'; simpl.
  - unfold ret. naive_solver.
  - unfold bind at 1.
    destruct (getitem game "slug" w) as [|[slug w1]] eqn:Hg; [done|].
    apply getitem_inv in Hg as [Hg ->]. unfold bind at 1.
    destruct (comprehension _ l w) as [|[ys w1]] eqn:Hc; [done|].
    destruct (IH ys w1 eq_refl) as (Hall & -> & ->).
    unfold ret. intros [= <- <-]. rewrite (slug_of_Some _ _ Hg).
    split_and!; [|done..]. constructor; eauto.
Qed.

(** C4: when the call of [api.get_library] raises, [sync_from_remote] does
    what it does on an empty catalog; the rows of the library carrying a
    slug, it returns two empty sets and leaves the library, the store and
    the list of requests as they were. *)
Theorem failed_fetch_is_empty_catalog e w :
  Forall (λ game, is_Some (game !! "slug")) (library w) →
  sync_from_remote (inl e) w = sync_from_remote (inr []) w
  ∧ sync_from_remote (inl e) w = inr ((∅, ∅), w).
Proof.
  intros Hall. split; [done|].
  unfold sync_from_remote, bind, get_library_attr.
  rewrite comprehension_slug by done. simpl. unfold ret.
  assert (∅ ∖ list_to_set (slug_of <$> library w) = (∅ : gset pyval))
    as -> by set_solver.
  unfold sync_missing_games. rewrite bool_decide_eq_true_2 by done.
  unfold ret. by rewrite bool_decide_eq_true_2.
Qed.

Lemma missing_record_inv slug game w r w' :
  missing_record slug game w = inr (r, w') →
  r !! "slug" = Some slug ∧ w' = w.
Proof.
  unfold missing_record, bind, getitem, ret, raise. intros Hr.
  repeat case_match; simplify_eq. done.
Qed.

Lemma missing_loop (not_in_local : gset pyval) remote acc w missing w' :
  for_each remote (missing_step not_in_local) acc w = inr (missing, w') →
  w' = w
  ∧ (λ r : dict, r !! "slug") <$> missing
    = ((λ r : dict, r !! "slug") <$> acc)
      ++ (Some <$> filter (λ s, s ∈ not_in_local) (slug_of <$> remote)).
Proof.
  revert acc. induction remote as [|game remote IH]; intros acc; simpl.
  - unfold ret. intros [= <- <-]. by rewrite app_nil_r.
  - unfold bind at 1.
    destruct (missing_step not_in_local acc game w) as [|[acc1 w1]] eqn:Hs;
      [done|].
    unfold missing_step, bind in Hs.
    destruct (getitem game "slug" w) as [|[slug w2]] eqn:Hg; [done|].
    apply getitem_inv in Hg as [Hg ->].
    rewrite (slug_of_Some _ _ Hg), filter_cons.
    case_bool_decide as Hin.
    + destruct (missing_record slug game w) as [|[r w2]] eqn:Hr; [done|].
      apply missing_record_inv in Hr as [Hr ->].
      unfold ret in Hs. injection Hs as <- <-.
      intros Hloop. apply IH in Hloop as [-> ->].
      rewrite decide_True by done.
      rewrite fmap_app. simpl. rewrite Hr, <- app_assoc. done.
    + unfold ret in Hs. injection Hs as <- <-.
      intros Hloop. apply IH in Hloop as [-> ->].
      by rewrite decide_False by done.
Qed.

Lemma missing_record_eq slug game w r w' :
  game !! "slug" = Some slug →
  missing_record slug game w = inr (r, w') →
  r = missing_record_of game ∧ w' = w.
Proof.
  unfold missing_record, missing_record_of, updated_of, bind, getitem, ret,
    raise.
  intros Hs Hr. rewrite (slug_of_Some _ _ Hs).
  repeat case_match; simplify_eq. done.
Qed.

Lemma missing_loop_records (not_in_local : gset pyval) remote acc w
    missing w' :
  for_each remote (missing_step not_in_local) acc w = inr (missing, w') →
  missing = acc ++ (missing_record_of <$> missing_games not_in_local remote).
Proof.
  unfold missing_games.
  revert acc. induction remote as [|game remote IH]; intros acc; simpl.
  - unfold ret. intros [= <- <-]. by rewrite app_nil_r.
  - unfold bind at 1.
    destruct (missing_step not_in_local acc game w) as [|[acc1 w1]] eqn:Hs;
      [done|].
    unfold missing_step, bind in Hs.
    destruct (getitem game "slug" w) as [|[slug w2]] eqn:Hg; [done|].
    apply getitem_inv in Hg as [Hg ->].
    rewrite filter_cons, (slug_of_Some _ _ Hg).
    case_bool_decide as Hin.
    + destruct (missing_record slug game w) as [|[r w2]] eqn:Hr; [done|].
      apply (missing_record_eq _ _ _ _ _ Hg) in Hr as [-> ->].
      unfold ret in Hs. injection Hs as <- <-.
      intros Hloop. pose proof (missing_loop _ _ _ _ _ _ Hloop) as [-> _].
      apply IH in Hloop as ->.
      rewrite decide_True by done.
      by rewrite fmap_cons, <- app_assoc.
    + unfold ret in Hs. injection Hs as <- <-.
      intros Hloop. pose proof (missing_loop _ _ _ _ _ _ Hloop) as [-> _].
      apply IH in Hloop as ->.
      by rewrite decide_False by done.
Qed.

Lemma sync_missing_games_inv (not_in_local : gset pyval) remote w added w' :
  sync_missing_games not_in_local remote w = inr (added, w') →
  (not_in_local = ∅ ∧ added = ∅ ∧ w' = w)
  ∨ (not_in_local ≠ ∅
     ∧ w' = after_insert w (missing_record_of
                              <$> missing_games not_in_local remote)
     ∧ added = list_to_set
                 (pga_add_games_bulk (db w)
                    (missing_record_of
                       <$> missing_games not_in_local remote)).2).
Proof.
  unfold sync_missing_games. intros Hs.
  case_bool_decide as He.
  { unfold ret in Hs. injection Hs as <- <-. by left. }
  right. unfold bind in Hs.
  destruct (for_each remote _ [] w) as [|[missing w1]] eqn:Hloop; [done|].
  pose proof (missing_loop _ _ _ _ _ _ Hloop) as [-> _].
  apply missing_loop_records in Hloop as ->. simpl in Hs.
  unfold request, ret, after_insert in *.
  destruct (pga_add_games_bulk (db w) _) as [d ids].
  by injection Hs as <- <-.
Qed.

(** C9 (amended): the batch handed to [pga.add_games_bulk] holds one record
    per remote entry whose slug is missing locally, in the order of the
    catalog; it holds at most one record per slug when no two remote
    entries share a slug. *)
Theorem missing_batch_one_record_per_entry
    (not_in_local : gset pyval) remote w added w' evs games :
  sync_missing_games not_in_local remote w = inr (added, w') →
  trace w' = trace w ++ evs →
  EAddGamesBulk games ∈ evs →
  (λ r : dict, r !! "slug") <$> games
  = Some <$> filter (λ s, s ∈ not_in_local) (slug_of <$> remote)
  ∧ (NoDup (slug_of <$> remote) →
     NoDup ((λ r : dict, r !! "slug") <$> games)).
Proof.
  unfold sync_missing_games. intros Hs Htr Hin.
  case_bool_decide as He.
  { unfold ret in Hs. injection Hs as <- <-.
    apply trace_extension_nil in Htr as ->. by apply elem_of_nil in Hin. }
  unfold bind in Hs.
  destruct (for_each remote _ [] w) as [|[missing w1]] eqn:Hloop; [done|].
  apply missing_loop in Hloop as [-> Hslugs]. simpl in Hslugs.
  unfold request, ret in Hs.
  destruct (pga_add_games_bulk (db w) missing) as [d ids].
  injection Hs as <- <-. simpl in Htr. apply app_inv_head in Htr as <-.
  apply list_elem_of_singleton in Hin. injection Hin as ->.
  split; [done|]. intros Hnd. rewrite Hslugs.
  apply (NoDup_fmap_2 Some). by apply NoDup_filter.
Qed.

End missing.

(** ** The reconciler at work on sample data *)


(** The staleness example: the remote entry is older and the name differs;
    nothing is requested. *)
Example doom_older_remote_no_update :
  sync_game_details [doom_remaster] (sync_over [doom_local])
  = inr (∅, sync_over [doom_local]).
Proof. vm_compute. reflexivity. Qed.

(** C2: at a backfill update ([year] unset locally, set remotely, the remote
    entry not newer) the upsert is requested but its identifier is not
    collected: [sync_game_details] returns the empty set. *)
Theorem backfill_update_not_collected :
  sync_game_details [doom_remaster] (sync_over [doom_no_year])
  = inr (∅, after_update (sync_over [doom_no_year]) (doom_args 50) []).
Proof. vm_compute. reflexivity. Qed.

Lemma media_refresh_iff_stale_witness :
  ∃ evs,
    trace (after_update (sync_over [doom_local]) (doom_args 150)
             [EDownloadIcon (VStr "doom") "banner";
              EDownloadIcon (VStr "doom") "icon"])
    = trace (sync_over [doom_local]) ++ evs
    ∧ ∀ s kind,
        EDownloadIcon s kind ∈ evs ↔
          s = VStr "doom" ∧ (kind = "banner" ∨ kind = "icon")
          ∧ dict_truthy (pga_get_game_by_field (db (sync_over [doom_local]))
                           (VStr "doom") "slug") = true
          ∧ stale doom_newer
              (pga_get_game_by_field (db (sync_over [doom_local]))
                 (VStr "doom") "slug").
Proof.
  apply (media_refresh_iff_stale ∅ doom_newer (VStr "doom")
           (sync_over [doom_local]) {[1]});
    vm_compute; reflexivity.
Defined.

Lemma update_keeps_local_name_and_runner_witness :
  ∃ slug local_game,
    doom_newer !! "slug" = Some slug
    ∧ local_game = pga_get_game_by_field (db (sync_over [doom_local])) slug
                     "slug"
    ∧ doom_args 150 !! "name" = local_game !! "name"
    ∧ doom_args 150 !! "runner" = local_game !! "runner"
    ∧ doom_args 150 !! "slug" = Some slug
    ∧ doom_args 150 !! "year" = doom_newer !! "year"
    ∧ doom_args 150 !! "updated" = doom_newer !! "updated"
    ∧ doom_args 150 !! "steamid" = doom_newer !! "steamid"
    ∧ ∀ key, is_Some (doom_args 150 !! key) →
        key ∈ ["name"; "runner"; "slug"; "year"; "updated"; "steamid"].
Proof.
  apply (update_keeps_local_name_and_runner ∅ doom_newer
           (sync_over [doom_local]) {[1]}
           (after_update (sync_over [doom_local]) (doom_args 150)
              [EDownloadIcon (VStr "doom") "banner";
               EDownloadIcon (VStr "doom") "icon"])
           [EAddOrUpdate (doom_args 150);
            EDownloadIcon (VStr "doom") "banner";
            EDownloadIcon (VStr "doom") "icon"]).
  - vm_compute. reflexivity.
  - vm_compute. reflexivity.
  - apply list_elem_of_here.
Defined.

Lemma failed_fetch_is_empty_catalog_witness :
  sync_from_remote (inl FetchError) (sync_over [doom_local])
  = sync_from_remote (inr []) (sync_over [doom_local])
  ∧ sync_from_remote (inl FetchError) (sync_over [doom_local])
    = inr ((∅, ∅), sync_over [doom_local]).
Proof.
  apply (failed_fetch_is_empty_catalog FetchError (sync_over [doom_local])).
  repeat constructor. vm_compute. eauto.
Defined.

(** Two remote variants share a slug that is missing locally: the batch
    holds a record for each, so two records with the same slug. *)
Lemma missing_batch_repeats_slug :
  sync_missing_games {[VStr "quake"]} [quake_draft; quake_published]
    (sync_over [])
  = inr ({[1; 2]},
         after_insert (sync_over []) [quake_draft; quake_published])
  ∧ ¬ NoDup ((λ r : dict, r !! "slug") <$> [quake_draft; quake_published]).
Proof.
  split; [vm_compute; reflexivity|].
  intros Hnd. apply NoDup_cons in Hnd as [Hnin _]. apply Hnin.
  vm_compute. apply list_elem_of_here.
Qed.

Lemma missing_batch_one_record_per_entry_witness :
  (λ r : dict, r !! "slug") <$> [quake_published]
  = Some <$> filter (λ s, s ∈ ({[VStr "quake"]} : gset pyval))
               (slug_of <$> [doom_remaster; quake_published])
  ∧ (NoDup (slug_of <$> [doom_remaster; quake_published]) →
     NoDup ((λ r : dict, r !! "slug") <$> [quake_published])).
Proof.
  apply (missing_batch_one_record_per_entry {[VStr "quake"]}
           [doom_remaster; quake_published] (sync_over [doom_local])
           {[2]}
           (after_insert (sync_over [doom_local]) [quake_published])
           [EAddGamesBulk [quake_published]]).
  - vm_compute. reflexivity.
  - vm_compute. reflexivity.
  - apply list_elem_of_here.
Defined.

(** An entry run by [linux], not marked installed, whose platform id Steam
    reports: the install transition is made and the request sent. *)
Lemma unsupported_runner_installed :
  hl2_row hl2_linux !! "runner" = Some (VStr "linux")
  ∧ outcome_of (sync_steam_local steam_with_220 absent_runner
                  (sync_over [hl2_linux]))
    = Some (({[1]}, ∅),
            [EMarkAsInstalled "220" "steam" (hl2_row hl2_linux)]).
Proof. split; vm_compute; reflexivity. Qed.

Lemma unsupported_runner_not_uninstalled_witness :
  ({[1]} : gset Z, ∅ : gset Z).2 = (∅ : gset Z, ∅ : gset Z).2
  ∧ (∀ g, EMarkAsUninstalled g
          ∉ [EMarkAsInstalled "220" "steam" (hl2_row hl2_linux)])
  ∧ (∀ inst, hl2_row hl2_linux !! "installed" = Some inst →
       Py.truthy inst = true →
       ({[1]} : gset Z, ∅ : gset Z) = (∅, ∅)
       ∧ World (library (sync_over [hl2_linux]))
               (steam_mark_as_installed (db (sync_over [hl2_linux])) "220"
                  "steam" (hl2_row hl2_linux)).1
               [EMarkAsInstalled "220" "steam" (hl2_row hl2_linux)]
         = sync_over [hl2_linux]).
Proof.
  apply (unsupported_runner_not_uninstalled steam_with_220 absent_runner
           (get_installed_steamapps steam_with_220)
           (get_installed_steamapps absent_runner)
           (∅, ∅) (hl2_row hl2_linux) (sync_over [hl2_linux])
           (VStr "linux")).
  - vm_compute. reflexivity.
  - vm_compute. reflexivity.
  - vm_compute. reflexivity.
  - vm_compute. reflexivity.
Defined.


(** An installed [winesteam] entry without configuration path, whose id is
    no longer reported: the entry is marked uninstalled. *)
Example uninstall_without_configpath :
  hl2_row hl2_winesteam !! "configpath" = Some VNone
  ∧ outcome_of (sync_steam_local absent_runner winesteam_empty
                  (sync_over [hl2_winesteam]))
    = Some ((∅, {[1]}), [EMarkAsUninstalled (hl2_row hl2_winesteam)]).
Proof. split; vm_compute; reflexivity. Qed.


(** ** The store *)

Section local_store.
Import LocalStore.
Implicit Types (d : t) (l : list dict) (row fields : dict) (slug : pyval).

Lemma add_games_bulk_foldl games d ids :
  foldl (λ acc game,
           let '(d', ids) := acc in
           let '(d'', i) := add_game d' game in
           (d'', ids ++ [i]))
        (d, ids) games
  = (Build (next_id d + Z.of_nat (length games))
           (rows d ++ new_rows (next_id d) games),
     ids ++ new_ids (next_id d) games).
Proof.
  revert d ids. induction games as [|game games IH]; intros d ids; simpl.
  - rewrite Z.add_0_r, !app_nil_r. by destruct d.
  - rewrite IH. simpl.
    rewrite <- !app_assoc. simpl. do 2 f_equal. lia.
Qed.

Lemma add_games_bulk_eq d games :
  add_games_bulk d games
  = (Build (next_id d + Z.of_nat (length games))
           (rows d ++ new_rows (next_id d) games),
     new_ids (next_id d) games).
Proof. unfold add_games_bulk. by rewrite add_games_bulk_foldl. Qed.


Lemma new_ids_nil n games : new_ids n games = [] → games = [].
Proof. by destruct games. Qed.


Lemma new_rows_slugs n games :
  (λ row : dict, row !! "slug") <$> new_rows n games
  = (λ game : dict, (game ∪ blank_row) !! "slug") <$> games.
Proof.
  revert n. induction games as [|game games IH]; intros n; simpl; [done|].
  rewrite lookup_insert_ne by done. by rewrite IH.
Qed.

Lemma row_id_new i fields : row_id (<["id" := VInt i]> fields) = i.
Proof. unfold row_id. by rewrite lookup_insert_eq. Qed.

Lemma row_id_union fields row :
  fields !! "id" = None → row_id (fields ∪ row) = row_id row.
Proof. intros Hf. unfold row_id. by rewrite lookup_union_r. Qed.

Lemma find_slug_Some slug l row :
  find_slug slug l = Some row → row ∈ l ∧ row !! "slug" = Some slug.
Proof.
  intros [Hin Hf]%find_some. split; [by apply list_elem_of_In|].
  by apply bool_decide_eq_true in Hf.
Qed.

Lemma find_slug_None slug l row :
  find_slug slug l = None → row ∈ l → row !! "slug" ≠ Some slug.
Proof.
  intros Hf Hin%list_elem_of_In. apply (find_none _ _ Hf) in Hin.
  by apply bool_decide_eq_false in Hin.
Qed.

Lemma find_slug_is_Some slug l row :
  row ∈ l → row !! "slug" = Some slug → is_Some (find_slug slug l).
Proof.
  intros Hin Hs. destruct (find_slug slug l) eqn:Hf; [by eexists|].
  by destruct (find_slug_None _ _ _ Hf Hin).
Qed.

Lemma get_game_by_slug d slug local_game :
  get_game_by_field d slug "slug" = local_game → local_game ≠ ∅ →
  find_slug slug (rows d) = Some local_game.
Proof.
  unfold get_game_by_field, find_slug.
  destruct (find _ _); simpl; congruence.
Qed.

Lemma get_game_by_slug_find d slug :
  get_game_by_field d slug "slug" = default ∅ (find_slug slug (rows d)).
Proof. done. Qed.

Lemma find_slug_update_row slug fields l row :
  fields !! "slug" = Some slug →
  find_slug slug l = Some row →
  find_slug slug (update_row slug fields l) = Some (fields ∪ row).
Proof.
  intros Hf. unfold find_slug. induction l as [|r l IH]; simpl; [done|].
  destruct (has_field "slug" slug r) eqn:Hr; simpl.
  - intros [= ->]. unfold has_field at 1.
    by rewrite (lookup_union_Some_l _ _ _ _ Hf), bool_decide_eq_true_2.
  - rewrite Hr. apply IH.
Qed.

Lemma find_slug_update_row_ne slug slug' fields l :
  fields !! "slug" = Some slug → slug' ≠ slug →
  find_slug slug' (update_row slug fields l) = find_slug slug' l.
Proof.
  intros Hf Hne. unfold find_slug. induction l as [|r l IH]; simpl; [done|].
  destruct (has_field "slug" slug r) eqn:Hr; simpl.
  - apply bool_decide_eq_true in Hr.
    unfold has_field at 1 3.
    rewrite (lookup_union_Some_l _ _ _ _ Hf), Hr.
    rewrite !bool_decide_eq_false_2; [done|congruence..].
  - by rewrite IH.
Qed.

Lemma update_row_slugs slug fields l :
  fields !! "slug" = Some slug →
  (λ row : dict, row !! "slug") <$> update_row slug fields l
  = (λ row : dict, row !! "slug") <$> l.
Proof.
  intros Hf. induction l as [|r l IH]; simpl; [done|].
  destruct (has_field "slug" slug r) eqn:Hr; simpl.
  - apply bool_decide_eq_true in Hr.
    by rewrite (lookup_union_Some_l _ _ _ _ Hf), Hr.
  - f_equal. apply IH.
Qed.


Lemma add_or_update_found d args slug row :
  args !! "slug" = Some slug →
  find_slug slug (rows d) = Some row →
  add_or_update d args
  = (Build (next_id d) (update_row slug args (rows d)), row_id row).
Proof.
  intros Hs Hf. unfold add_or_update, find_slug in *. rewrite Hs. simpl.
  by rewrite Hf.
Qed.

End local_store.

(** ** Added and updated identifiers *)

Section disjointness.
Import LocalStore.
Implicit Types (w : world LocalStore.t) (game : dict) (remote : list dict).

Lemma kwargs_slug name runner slug year ru steamid :
  kwargs name runner slug year ru steamid !! "slug" = Some slug.
Proof. done. Qed.

Lemma kwargs_updated name runner slug year ru steamid :
  kwargs name runner slug year ru steamid !! "updated" = Some ru.
Proof. done. Qed.

Lemma kwargs_id name runner slug year ru steamid :
  kwargs name runner slug year ru steamid !! "id" = None.
Proof. done. Qed.


Lemma gt_irrefl v : Py.gt v v = false.
Proof.
  destruct v as [|z|s]; simpl; [done|apply Z.ltb_irrefl|].
  destruct (String.compare s s) eqn:Hc; try done.
  pose proof (String.compare_antisym s s) as Ha. by rewrite Hc in Ha.
Qed.

(** The store after an upsert of a slug that is present. *)
Lemma db_after_update w args evs slug row :
  args !! "slug" = Some slug →
  find_slug slug (rows (db w)) = Some row →
  db (after_update w args evs)
  = Build (next_id (db w)) (update_row slug args (rows (db w)))
  ∧ (pga_add_or_update (db w) args).2 = row_id row.
Proof.
  intros Hs Hf. unfold after_update. simpl.
  by rewrite (add_or_update_found _ _ _ _ Hs Hf).
Qed.




Lemma missing_record_of_slug game :
  missing_record_of game !! "slug" = Some (slug_of game).
Proof. done. Qed.





End disjointness.


(** ** A second pass *)

Section second_pass.
Import LocalStore.
Implicit Types (w : world LocalStore.t) (game : dict) (remote l : list dict)
  (d : LocalStore.t) (slug : pyval).

Lemma updated_at_get_game d slug :
  updated_at (rows d) slug = get_game_by_field d slug "slug" !! "updated".
Proof.
  unfold updated_at, get_game_by_field, find_slug.
  by destruct (find _ _).
Qed.

Lemma find_slug_slug_column slug l :
  is_Some (find_slug slug l) ↔ Some slug ∈ slug_column l.
Proof.
  unfold slug_column. split.
  - intros [row [Hin Hs]%find_slug_Some]. rewrite <- Hs.
    by apply (list_elem_of_fmap_2 (λ row : dict, row !! "slug")).
  - intros (row & Hs & Hin)%list_elem_of_fmap.
    by apply (find_slug_is_Some _ _ row).
Qed.

(** What an upsert of a slug that is present does to the two columns. *)
Lemma update_row_columns slug args l :
  args !! "slug" = Some slug →
  is_Some (find_slug slug l) →
  slug_column (update_row slug args l) = slug_column l
  ∧ (∀ s, s ≠ slug →
       updated_at (update_row slug args l) s = updated_at l s)
  ∧ updated_at (update_row slug args l) slug
    = match args !! "updated" with
      | Some v => Some v
      | None => updated_at l slug
      end.
Proof.
  intros Hs [row Hrow]. split_and!.
  - by apply update_row_slugs.
  - intros s Hne. unfold updated_at.
    by rewrite (find_slug_update_row_ne slug s).
  - unfold updated_at. rewrite (find_slug_update_row _ _ _ _ Hs Hrow), Hrow.
    simpl. rewrite lookup_union.
    by destruct (args !! "updated"), (row !! "updated").
Qed.

Lemma add_or_update_columns d args slug :
  args !! "slug" = Some slug →
  is_Some (find_slug slug (rows d)) →
  rows (add_or_update d args).1 = update_row slug args (rows d).
Proof.
  intros Hs [row Hrow]. by rewrite (add_or_update_found _ _ _ _ Hs Hrow).
Qed.

(** One turn of the loop of [sync_game_details] seen from the store. *)
Lemma details_step_store updated game w updated' w' :
  details_step updated game w = inr (updated', w') →
  library w' = library w
  ∧ slug_column (rows (db w')) = slug_column (rows (db w))
  ∧ (∀ s, s ≠ slug_of game →
       updated_at (rows (db w')) s = updated_at (rows (db w)) s)
  ∧ not_stale (rows (db w')) game
  ∧ (not_stale (rows (db w)) game → updated' = updated).
Proof.
  intros Hstep. apply details_step_inv in Hstep.
  destruct Hstep as [slug Hslug Hloc
                 |slug local_game ru lu Hslug Hloc Hne Hru Hlu Hgt Hb
                 |slug local_game ru lu name runner year steamid
                    Hslug Hloc Hne Hru Hlu Hgt Hn Hr Hy Hst
                 |slug local_game ru lu name runner year steamid
                    Hslug Hloc Hne Hru Hlu Hgt Hb Hn Hr Hy Hst].
  - split_and!; try done. intros ru lu _.
    rewrite (slug_of_Some _ _ Hslug), updated_at_get_game.
    simpl in Hloc. by rewrite Hloc.
  - split_and!; try done. intros ru' lu'.
    rewrite (slug_of_Some _ _ Hslug), updated_at_get_game.
    simpl in Hloc. rewrite Hloc, Hru, Hlu. by intros [= <-] [= <-].
  - subst args. pose proof Hloc as Hfind.
    apply get_game_by_slug in Hfind; [|done].
    destruct (db_after_update w (kwargs name runner slug year ru steamid)
                [EDownloadIcon slug "banner"; EDownloadIcon slug "icon"]
                slug local_game eq_refl Hfind) as [-> _].
    destruct (update_row_columns slug
                (kwargs name runner slug year ru steamid) (rows (db w))
                eq_refl ltac:(eauto)) as (Hcol & Hother & Hself).
    rewrite (slug_of_Some _ _ Hslug). simpl. split_and!; try done.
    + intros ru' lu'. rewrite (slug_of_Some _ _ Hslug), Hself, Hru. simpl.
      intros [= <-] [= <-]. apply gt_irrefl.
    + intros Hns. specialize (Hns ru lu Hru).
      rewrite (slug_of_Some _ _ Hslug), updated_at_get_game in Hns.
      simpl in Hloc. rewrite Hloc in Hns. specialize (Hns Hlu). congruence.
  - subst args. pose proof Hloc as Hfind.
    apply get_game_by_slug in Hfind; [|done].
    destruct (db_after_update w (kwargs name runner slug year ru steamid)
                [] slug local_game eq_refl Hfind) as [-> _].
    destruct (update_row_columns slug
                (kwargs name runner slug year ru steamid) (rows (db w))
                eq_refl ltac:(eauto)) as (Hcol & Hother & Hself).
    rewrite (slug_of_Some _ _ Hslug). simpl. split_and!; try done.
    intros ru' lu'. rewrite (slug_of_Some _ _ Hslug), Hself, Hru. simpl.
    intros [= <-] [= <-]. apply gt_irrefl.
Qed.

Lemma not_stale_ext l l' game :
  updated_at l' (slug_of game) = updated_at l (slug_of game) →
  not_stale l game → not_stale l' game.
Proof. unfold not_stale. intros ->. done. Qed.

(** The first pass leaves no remote entry newer than its row. *)
Lemma details_loop_store l updated w updated' w' :
  NoDup (slug_of <$> l) →
  for_each l details_step updated w = inr (updated', w') →
  library w' = library w
  ∧ slug_column (rows (db w')) = slug_column (rows (db w))
  ∧ (∀ s, s ∉ slug_of <$> l →
       updated_at (rows (db w')) s = updated_at (rows (db w)) s)
  ∧ Forall (not_stale (rows (db w'))) l.
Proof.
  revert updated w. induction l as [|game l IH]; intros updated w; simpl.
  - unfold ret. intros _ [= <- <-]. by split_and!.
  - rewrite NoDup_cons. intros [Hnin Hnd]. unfold bind.
    destruct (details_step updated game w) as [|[updated1 w1]] eqn:Hstep;
      [done|].
    intros Hloop.
    apply details_step_store in Hstep as (Hlib1 & Hcol1 & Hoth1 & Hns1 & _).
    apply IH in Hloop as (Hlib & Hcol & Hoth & Hns); [|done].
    split_and!; [congruence|congruence| |].
    + intros s Hs. rewrite Hoth, Hoth1; [done|set_solver..].
    + constructor; [|done]. apply (not_stale_ext (rows (db w1))); [|done].
      by apply Hoth.
Qed.

(** A pass over entries none of which is newer collects nothing. *)
Lemma details_loop_not_stale l updated w updated' w' :
  NoDup (slug_of <$> l) →
  Forall (not_stale (rows (db w))) l →
  for_each l details_step updated w = inr (updated', w') →
  updated' = updated.
Proof.
  revert updated w. induction l as [|game l IH]; intros updated w; simpl.
  - unfold ret. by intros _ _ [= <- <-].
  - rewrite NoDup_cons, Forall_cons. intros [Hnin Hnd] [Hns Hall].
    unfold bind.
    destruct (details_step updated game w) as [|[updated1 w1]] eqn:Hstep;
      [done|].
    intros Hloop.
    apply details_step_store in Hstep as (_ & _ & Hoth1 & _ & Hup).
    rewrite <- (Hup Hns). apply (IH _ w1); [done| |done].
    rewrite Forall_forall in Hall. apply Forall_forall. intros game' Hin.
    apply (not_stale_ext (rows (db w))); [|by apply Hall].
    apply Hoth1. intros Heq. apply Hnin. rewrite <- Heq.
    by apply list_elem_of_fmap_2.
Qed.

(** An upsert that carries no update time, for a slug that is present. *)
Lemma upsert_keeps_columns d args slug :
  args !! "slug" = Some slug → args !! "updated" = None →
  Some slug ∈ slug_column (rows d) →
  slug_column (rows (add_or_update d args).1) = slug_column (rows d)
  ∧ ∀ s, updated_at (rows (add_or_update d args).1) s
         = updated_at (rows d) s.
Proof.
  intros Hs Hu Hin%find_slug_slug_column.
  rewrite (add_or_update_columns _ _ _ Hs Hin).
  destruct (update_row_columns slug args (rows d) Hs Hin)
    as (Hcol & Hother & Hself).
  split; [done|]. intros s. destruct (decide (s = slug)) as [->|Hne].
  - by rewrite Hself, Hu.
  - by apply Hother.
Qed.

Lemma steam_local_step_store steamrunner winesteamrunner steamapps
    winesteamapps acc game_info w acc' w' :
  steam_local_step steamrunner winesteamrunner steamapps winesteamapps
    acc game_info w = inr (acc', w') →
  Some (slug_of game_info) ∈ slug_column (rows (db w)) →
  library w' = library w
  ∧ slug_column (rows (db w')) = slug_column (rows (db w))
  ∧ ∀ s, updated_at (rows (db w')) s = updated_at (rows (db w)) s.
Proof.
  intros Hstep Hin.
  destruct (steam_local_step_keys _ _ _ _ _ _ _ _ _ Hstep)
    as (r & sid & inst & Hr & Hs & Hi).
  destruct (Py.truthy inst) eqn:Ht.
  - destruct acc as [installed uninstalled].
    rewrite (steam_local_step_uninstall _ _ _ _ _ _ _ _ r sid inst)
      in Hstep by done.
    destruct (negb _ && _); injection Hstep as <- <-; [|done].
    simpl. split; [done|].
    by apply (upsert_keeps_columns _ _ (slug_of game_info)).
  - destruct (steam_local_step_not_installed _ _ _ _ _ _ _ r sid inst
                _ _ Hr Hs Hi Ht Hstep) as [[_ ->]|(rn & _ & ->)]; [done|].
    simpl. split; [done|].
    by apply (upsert_keeps_columns _ _ (slug_of game_info)).
Qed.

Lemma steam_local_loop_store steamrunner winesteamrunner steamapps
    winesteamapps l acc w acc' w' :
  for_each l
    (steam_local_step steamrunner winesteamrunner steamapps winesteamapps)
    acc w = inr (acc', w') →
  Forall (λ game_info,
            Some (slug_of game_info) ∈ slug_column (rows (db w))) l →
  library w' = library w
  ∧ slug_column (rows (db w')) = slug_column (rows (db w))
  ∧ ∀ s, updated_at (rows (db w')) s = updated_at (rows (db w)) s.
Proof.
  revert acc w. induction l as [|game_info l IH]; intros acc w; simpl.
  - unfold ret. by intros [= <- <-].
  - unfold bind.
    destruct (steam_local_step _ _ _ _ acc game_info w)
      as [|[acc1 w1]] eqn:Hstep; [done|].
    intros Hloop [Hin Hall]%Forall_cons.
    apply steam_local_step_store in Hstep as (Hlib1 & Hcol1 & Hup1);
      [|done].
    apply IH in Hloop as (Hlib & Hcol & Hup); [|by rewrite Hcol1].
    split_and!; [congruence..|]. intros s. by rewrite Hup, Hup1.
Qed.

Lemma sync_local_store steamrunner winesteamrunner w res w' :
  sync_local steamrunner winesteamrunner w = inr (res, w') →
  Forall (λ game_info,
            Some (slug_of game_info) ∈ slug_column (rows (db w)))
         (library w) →
  library w' = library w
  ∧ slug_column (rows (db w')) = slug_column (rows (db w))
  ∧ ∀ s, updated_at (rows (db w')) s = updated_at (rows (db w)) s.
Proof.
  unfold sync_local, sync_steam_local, bind, get_library_attr.
  apply steam_local_loop_store.
Qed.

Lemma slug_column_elem l row :
  row ∈ l → is_Some (row !! "slug") → Some (slug_of row) ∈ slug_column l.
Proof.
  intros Hin [slug Hs]. rewrite (slug_of_Some _ _ Hs), <- Hs.
  by apply (list_elem_of_fmap_2 (λ row : dict, row !! "slug")).
Qed.

Lemma slug_column_slug_of l slug :
  Some slug ∈ slug_column l → slug ∈ slug_of <$> l.
Proof.
  intros (row & Hs & Hin)%list_elem_of_fmap.
  symmetry in Hs. rewrite <- (slug_of_Some _ _ Hs).
  by apply list_elem_of_fmap_2.
Qed.

Lemma slug_of_slug_column l slug :
  Forall (λ row : dict, is_Some (row !! "slug")) l →
  slug ∈ slug_of <$> l → Some slug ∈ slug_column l.
Proof.
  intros Hall (row & -> & Hin)%list_elem_of_fmap.
  apply slug_column_elem; [done|].
  rewrite Forall_forall in Hall. by apply Hall.
Qed.

Lemma new_rows_slug_column n remote :
  slug_column (new_rows n (missing_record_of <$> remote))
  = (λ game, Some (slug_of game)) <$> remote.
Proof.
  unfold slug_column. rewrite new_rows_slugs, <- list_fmap_compose.
  apply list_fmap_ext. intros _ game _. simpl.
  apply lookup_union_Some_l, missing_record_of_slug.
Qed.

(** The store after [sync_missing_games] holds a row for every slug of the
    catalog. *)
Lemma sync_missing_games_store remote w added w1 :
  Forall (λ row : dict, is_Some (row !! "slug")) (library w) →
  library w = rows (db w) →
  sync_missing_games
    (list_to_set (slug_of <$> remote)
     ∖ list_to_set (slug_of <$> library w)) remote w = inr (added, w1) →
  library w1 = library w
  ∧ (∃ ext, slug_column (rows (db w1)) = slug_column (rows (db w)) ++ ext
            ∧ Forall is_Some ext)
  ∧ Forall (λ game, Some (slug_of game) ∈ slug_column (rows (db w1))) remote
  ∧ (added = ∅ → w1 = w).
Proof.
  intros Hslugs Hlib Hm.
  assert (∀ game, game ∈ remote →
            slug_of game ∉ (list_to_set (slug_of <$> remote)
                            ∖ list_to_set (slug_of <$> library w)
                            : gset pyval) →
            Some (slug_of game) ∈ slug_column (rows (db w))) as Hold.
  { intros game Hin Hnin. rewrite <- Hlib.
    apply slug_of_slug_column.
    - done.
    - apply (list_elem_of_fmap_2 slug_of) in Hin.
      rewrite elem_of_difference, !elem_of_list_to_set in Hnin.
      destruct (decide (slug_of game ∈ slug_of <$> library w)); [done|].
      by destruct Hnin. }
  apply sync_missing_games_inv in Hm as [(Hnil & -> & ->)|(Hnil & -> & ->)].
  - split_and!; [done| |..|done].
    + exists []. by rewrite app_nil_r.
    + apply Forall_forall. intros game Hin. apply Hold; [done|].
      rewrite Hnil. set_solver.
  - simpl. rewrite add_games_bulk_eq. simpl.
    unfold slug_column at 1 3. rewrite fmap_app.
    fold (slug_column (rows (db w))).
    fold (slug_column (new_rows (next_id (db w))
            (missing_record_of
               <$> missing_games
                     (list_to_set (slug_of <$> remote)
                      ∖ list_to_set (slug_of <$> library w)) remote))).
    rewrite new_rows_slug_column. split_and!; [done| | |].
    + eexists. split; [done|]. apply Forall_fmap, Forall_true. by eexists.
    + apply Forall_forall. intros game Hin. apply elem_of_app.
      destruct (decide (slug_of game
                        ∈ (list_to_set (slug_of <$> remote)
                           ∖ list_to_set (slug_of <$> library w)
                           : gset pyval))) as [Hnin|Hnin].
      * right. apply (list_elem_of_fmap_2 (λ game, Some (slug_of game))).
        by apply list_elem_of_filter.
      * left. by apply Hold.
    + intros Hempty. exfalso.
      apply set_choose_L in Hnil as [slug Hslug].
      assert (slug ∈ slug_of <$> remote) as (game & -> & Hin)%list_elem_of_fmap
        by set_solver.
      assert (game ∈ missing_games
                (list_to_set (slug_of <$> remote)
                 ∖ list_to_set (slug_of <$> library w)) remote) as Hmiss
        by by apply list_elem_of_filter.
      destruct (missing_games _ remote) as [|g0 gs]; [by apply elem_of_nil in Hmiss|].
      simpl in Hempty. set_solver.
Qed.

Lemma sync_game_details_store remote updated w w' :
  NoDup (slug_of <$> remote) →
  sync_game_details remote w = inr (updated, w') →
  library w' = library w
  ∧ slug_column (rows (db w')) = slug_column (rows (db w))
  ∧ Forall (not_stale (rows (db w'))) remote.
Proof.
  intros Hnd. unfold sync_game_details. case_bool_decide as He.
  - unfold ret. intros [= <- <-]. by rewrite He.
  - intros Hloop.
    apply details_loop_store in Hloop as (? & ? & _ & ?); done.
Qed.

(** The state in which [sync_from_remote] leaves a [Sync] object whose
    library was read from the store. *)
Lemma sync_from_remote_store remote w res w' :
  library w = rows (db w) →
  NoDup (slug_of <$> remote) →
  sync_from_remote (inr remote) w = inr (res, w') →
  Forall (λ game, Some (slug_of game) ∈ slug_column (rows (db w'))) remote
  ∧ Forall (λ game, Some (slug_of game) ∈ slug_column (library w')) remote
  ∧ Forall (λ row, Some (slug_of row) ∈ slug_column (rows (db w')))
           (library w')
  ∧ Forall (not_stale (rows (db w'))) remote.
Proof.
  intros Hlib Hnd. unfold sync_from_remote, bind, get_library_attr.
  destruct (comprehension _ (library w) w) as [|[local_slugs w0]] eqn:Hl;
    [done|].
  apply comprehension_slug_inv in Hl as (Hslugs & -> & ->).
  destruct (comprehension _ remote w) as [|[remote_slugs w0]] eqn:Hr;
    [done|].
  apply comprehension_slug_inv in Hr as (_ & -> & ->).
  destruct (sync_missing_games _ remote w) as [|[added w1]] eqn:Hm; [done|].
  destruct (sync_game_details remote w1) as [|[updated w2]] eqn:Hd; [done|].
  apply sync_missing_games_store in Hm
    as (Hlib1 & (ext & Hcol1 & Hext) & Hcover & Hsame); [|done..].
  apply sync_game_details_store in Hd as (Hlib2 & Hcol2 & Hns); [|done].
  assert (Forall is_Some (slug_column (rows (db w2)))) as Hall.
  { rewrite Hcol2, Hcol1. apply Forall_app. split; [|done].
    rewrite <- Hlib. by apply Forall_fmap. }
  assert (∀ l, l ⊆ rows (db w2) →
            Forall (λ row, Some (slug_of row) ∈ slug_column (rows (db w2)))
                   l) as Hrows.
  { intros l Hsub. apply Forall_forall. intros row Hin.
    apply slug_column_elem; [by apply Hsub|].
    unfold slug_column in Hall. rewrite Forall_fmap, Forall_forall in Hall.
    by apply Hall, Hsub. }
  rewrite <- Hcol2 in Hcover.
  unfold query, set_library_attr, ret.
  case_bool_decide as Hadded; simpl; intros [= <- <-]; simpl.
  - rewrite Hsame in * by done.
    rewrite Hlib2. split_and!; [done| |  |done].
    + by rewrite Hlib, <- Hcol2.
    + rewrite Hcol2, Hlib. apply Forall_forall. intros row Hin.
      apply slug_column_elem; [done|].
      rewrite Forall_forall in Hslugs. apply Hslugs. by rewrite Hlib.
  - split_and!; [done|done| |done]. by apply Hrows.
Qed.

(** A pass over a library that knows every slug of the catalog, with no
    remote entry newer than its row, adds and updates nothing. *)
Lemma sync_from_remote_again remote w res w' :
  NoDup (slug_of <$> remote) →
  Forall (λ game, Some (slug_of game) ∈ slug_column (library w)) remote →
  Forall (not_stale (rows (db w))) remote →
  sync_from_remote (inr remote) w = inr (res, w') →
  res = (∅, ∅).
Proof.
  intros Hnd Hcover Hns. unfold sync_from_remote, bind, get_library_attr.
  destruct (comprehension _ (library w) w) as [|[local_slugs w0]] eqn:Hl;
    [done|].
  apply comprehension_slug_inv in Hl as (Hslugs & -> & ->).
  destruct (comprehension _ remote w) as [|[remote_slugs w0]] eqn:Hr;
    [done|].
  apply comprehension_slug_inv in Hr as (_ & -> & ->).
  assert (list_to_set (slug_of <$> remote)
          ∖ list_to_set (slug_of <$> library w) = (∅ : gset pyval)) as ->.
  { apply set_eq. intros slug.
    rewrite elem_of_difference, !elem_of_list_to_set, elem_of_empty.
    split; [|done]. intros [(game & -> & Hin)%list_elem_of_fmap Hnin].
    apply Hnin, slug_column_slug_of.
    rewrite Forall_forall in Hcover. by apply Hcover. }
  unfold sync_missing_games. rewrite bool_decide_eq_true_2 by done.
  unfold ret.
  destruct (sync_game_details remote w) as [|[updated w2]] eqn:Hd; [done|].
  rewrite bool_decide_eq_true_2 by done. simpl. intros [= <- <-].
  f_equal. revert Hd. unfold sync_game_details. case_bool_decide.
  - unfold ret. by intros [= <- <-].
  - by apply details_loop_not_stale.
Qed.

(** C7 (amended): after a full sync run by a [Sync] object just created,
    over a catalog in which no two entries share a slug, a second full sync
    on the same store and catalog (by the same object, or by one whose
    library is read again) returns empty [added] and [updated] sets. *)
Theorem second_sync_adds_and_updates_nothing remote steamrunner
    winesteamrunner w w1 w2 w3 res1 res2 :
  library w = rows (db w) →
  NoDup (slug_of <$> remote) →
  sync_all (inr remote) steamrunner winesteamrunner w = inr (res1, w1) →
  db w2 = db w1 →
  library w2 = library w1 ∨ library w2 = rows (db w1) →
  sync_all (inr remote) steamrunner winesteamrunner w2 = inr (res2, w3) →
  res2.1 = (∅, ∅).
Proof.
  intros Hlib Hnd Hrun1 Hdb Hlib2 Hrun2.
  unfold sync_all, bind in Hrun1, Hrun2.
  destruct (sync_from_remote (inr remote) w) as [|[r1 wa]] eqn:Hr1; [done|].
  destruct (sync_local steamrunner winesteamrunner wa) as [|[l1 wb]] eqn:Hl1;
    [done|].
  unfold ret in Hrun1. injection Hrun1 as <- <-.
  destruct (sync_from_remote (inr remote) w2) as [|[r2 wc]] eqn:Hr2; [done|].
  destruct (sync_local steamrunner winesteamrunner wc) as [|[l2 wd]] eqn:Hl2;
    [done|].
  unfold ret in Hrun2. injection Hrun2 as <- <-. simpl.
  apply sync_from_remote_store in Hr1 as (Hcover & Hlcover & Hin & Hns);
    [|done..].
  apply sync_local_store in Hl1 as (Hlibb & Hcolb & Hupb); [|done].
  apply (sync_from_remote_again remote w2 r2 wc); [done| | |done].
  - destruct Hlib2 as [-> | ->].
    + by rewrite Hlibb.
    + by rewrite Hcolb.
  - rewrite Hdb. eapply Forall_impl; [apply Hns|].
    intros game Hg. apply (not_stale_ext (rows (db wa))); [|done].
    apply Hupb.
Qed.

End second_pass.


(** ** Two passes on sample data *)



(** A second full sync by the same object repeats the install transition
    of the first, the library not having been read again; and with two
    remote variants of a slug the second full sync updates again. *)
Lemma second_sync_repeats :
  fst <$> outcome_of (hl2_pass (sync_over [hl2_linux]))
  = Some ((∅, ∅), ({[1]}, ∅))
  ∧ fst <$> outcome_of (hl2_pass (world_after (hl2_pass (sync_over [hl2_linux]))
                                    (sync_over [hl2_linux])))
    = Some ((∅, ∅), ({[1]}, ∅))
  ∧ fst <$> outcome_of
              (doom_variants_pass
                 (world_after (doom_variants_pass (sync_over [doom_no_year]))
                    (sync_over [doom_no_year])))
    = Some ((∅, {[1]}), (∅, ∅)).
Proof. split_and!; vm_compute; reflexivity. Qed.

Lemma second_sync_adds_and_updates_nothing_witness :
  ((∅ : gset Z, ∅ : gset Z), (∅ : gset Z, ∅ : gset Z)).1 = (∅, ∅).
Proof.
  apply (second_sync_adds_and_updates_nothing
           [doom_newer; quake_published] steam_with_220 absent_runner
           (sync_over [doom_local])
           (world_after (catalog_pass (sync_over [doom_local]))
              (sync_over [doom_local]))
           (world_after (catalog_pass (sync_over [doom_local]))
              (sync_over [doom_local]))
           (world_after
              (catalog_pass
                 (world_after (catalog_pass (sync_over [doom_local]))
                    (sync_over [doom_local])))
              (sync_over [doom_local]))
           (({[2]}, {[1]}), (∅, ∅))).
  - reflexivity.
  - apply (bool_decide_unpack _). vm_compute. exact I.
  - vm_compute. reflexivity.
  - reflexivity.
  - left. reflexivity.
  - vm_compute. reflexivity.
Defined.

(** * Further properties of the code *)

(** ** The installation scanner *)

Section scanner.

Lemma scan_directory (installed : list string) (dir : list AppManifest) :
  foldl (λ installed appmanifest,
           if appmanifest_is_installed appmanifest
           then installed ++ [appmanifest_steamid appmanifest]
           else installed)
        installed dir
  = installed
    ++ (appmanifest_steamid
          <$> filter (λ m, appmanifest_is_installed m = true) dir).
Proof.
  revert installed. induction dir as [|m dir IH]; intros installed; simpl.
  - by rewrite app_nil_r.
  - rewrite IH, filter_cons.
    destruct (appmanifest_is_installed m) eqn:Hm.
    + rewrite decide_True by done. rewrite fmap_cons, <- app_assoc. done.
    + by rewrite decide_False by done.
Qed.

Lemma scan_directories (installed : list string)
    (dirs : list (list AppManifest)) :
  foldl (λ installed steamapps_path,
           foldl (λ installed appmanifest,
                    if appmanifest_is_installed appmanifest
                    then installed ++ [appmanifest_steamid appmanifest]
                    else installed)
                 installed steamapps_path)
        installed dirs
  = installed
    ++ (appmanifest_steamid
          <$> filter (λ m, appmanifest_is_installed m = true) (concat dirs)).
Proof.
  revert installed. induction dirs as [|dir dirs IH]; intros installed; simpl.
  - by rewrite app_nil_r.
  - rewrite IH, scan_directory, filter_app, fmap_app, <- app_assoc. done.
Qed.

(** X1: [get_installed_steamapps] returns nothing for a runner that is not
    installed, whatever its directories hold; for an installed runner it
    returns the ids of the manifests marked installed, directory after
    directory, in order and with repetitions; so an id is returned exactly
    when the runner is installed and some manifest of some directory is
    marked installed and carries it. *)
Theorem get_installed_steamapps_scan (r : runner) :
  get_installed_steamapps r
  = (if is_installed r then installed_manifest_ids r else [])
  ∧ ∀ sid, sid ∈ get_installed_steamapps r ↔
      is_installed r = true
      ∧ ∃ dir m, dir ∈ get_steamapps_dirs r ∧ m ∈ dir
                 ∧ appmanifest_is_installed m = true
                 ∧ appmanifest_steamid m = sid.
Proof.
  assert (get_installed_steamapps r
          = if is_installed r then installed_manifest_ids r else []) as Heq.
  { unfold get_installed_steamapps, installed_manifest_ids.
    destruct (is_installed r); simpl; [|done]. by rewrite scan_directories. }
  split; [done|]. intros sid. rewrite Heq.
  destruct (is_installed r).
  - unfold installed_manifest_ids. rewrite list_elem_of_fmap. split.
    + intros (m & -> & [Hm Hin]%list_elem_of_filter).
      apply list_elem_of_In, in_concat in Hin as (dir & Hdir & Hin).
      apply list_elem_of_In in Hdir, Hin.
      split; [done|]. by exists dir, m.
    + intros (_ & dir & m & Hdir & Hin & Hm & <-).
      exists m. split; [done|]. apply list_elem_of_filter. split; [done|].
      apply list_elem_of_In, in_concat. exists dir.
      by split; apply list_elem_of_In.
  - split; [by intros ?%elem_of_nil|]. by intros [? _].
Qed.

End scanner.

(** ** Install transitions and errors of the installation-state reconciler *)

Section steam_local_more.
Context {DB : Type} `{!Store DB}.
Implicit Types (w : world DB) (game_info : dict) (acc : gset Z * gset Z).

(** The loop body on an entry that is not marked installed. *)
Lemma steam_local_step_install steamrunner winesteamrunner
    steamapps winesteamapps installed uninstalled game_info w r sid inst :
  game_info !! "runner" = Some r →
  game_info !! "steamid" = Some sid →
  game_info !! "installed" = Some inst →
  Py.truthy inst = false →
  steam_local_step steamrunner winesteamrunner steamapps winesteamapps
    (installed, uninstalled) game_info w
  = if bool_decide (Py.str sid ∈ steamapps) then
      inr ((installed
            ∪ {[(steam_mark_as_installed (db w) (Py.str sid) "steam"
                   game_info).2]}, uninstalled),
           after_mark_installed w (Py.str sid) "steam" game_info)
    else if bool_decide (Py.str sid ∈ winesteamapps) then
      match game_info !! "configpath" with
      | None => inl (KeyError "configpath")
      | Some configpath =>
          if Py.truthy configpath then
            inr ((installed
                  ∪ {[(steam_mark_as_installed (db w) (Py.str sid)
                         "winesteam" game_info).2]}, uninstalled),
                 after_mark_installed w (Py.str sid) "winesteam" game_info)
          else inr ((installed, uninstalled), w)
      end
    else inr ((installed, uninstalled), w).
Proof.
  intros Hr Hs Hi Ht. unfold steam_local_step, bind, getitem.
  rewrite Hr, Hs, Hi. simpl. rewrite Ht. simpl.
  unfold mark_as_installed, request, ret, raise, after_mark_installed.
  destruct (bool_decide (Py.str sid ∈ steamapps)).
  { by destruct (steam_mark_as_installed _ _ _ _). }
  destruct (bool_decide (Py.str sid ∈ winesteamapps)); [|done].
  destruct (game_info !! "configpath") as [configpath|]; simpl; [|done].
  destruct (Py.truthy configpath); simpl; [|done].
  by destruct (steam_mark_as_installed _ _ _ _).
Qed.

(** X2: an entry undergoes the install transition under a runner name
    exactly when it is not marked installed and either Steam reports its id
    (the name is then [steam], whatever Wine Steam reports and whether or
    not the entry has a configuration path), or only Wine Steam reports it
    and the entry has a non-empty configuration path (the name is then
    [winesteam]). The runner stored in the entry is read but takes no part
    in the decision. *)
Theorem install_iff steamrunner winesteamrunner acc game_info w runner_name :
  (∃ acc' w' evs sid,
      steam_local_step steamrunner winesteamrunner
        (get_installed_steamapps steamrunner)
        (get_installed_steamapps winesteamrunner) acc game_info w
      = inr (acc', w')
      ∧ trace w' = trace w ++ evs
      ∧ EMarkAsInstalled sid runner_name game_info ∈ evs)
  ↔ install_conditions steamrunner winesteamrunner runner_name game_info.
Proof.
  split.
  - intros (acc' & w' & evs & sid0 & Hstep & Htr & Hin).
    destruct (steam_local_step_keys _ _ _ _ _ _ _ _ _ Hstep)
      as (r & sid & inst & Hr & Hs & Hi).
    destruct acc as [installed uninstalled].
    destruct (Py.truthy inst) eqn:Ht.
    { rewrite (steam_local_step_uninstall _ _ _ _ _ _ _ _ r sid inst)
        in Hstep by done.
      destruct (negb _ && _); injection Hstep as <- <-.
      - simpl in Htr. apply app_inv_head in Htr as <-.
        by apply list_elem_of_singleton in Hin.
      - apply trace_extension_nil in Htr as ->. by apply elem_of_nil in Hin. }
    rewrite (steam_local_step_install _ _ _ _ _ _ _ _ r sid inst)
      in Hstep by done.
    exists r, sid, inst. split_and!; try done.
    case_bool_decide as Hst.
    { injection Hstep as <- <-. simpl in Htr.
      apply app_inv_head in Htr as <-.
      apply list_elem_of_singleton in Hin. injection Hin as -> ->.
      by left. }
    case_bool_decide as Hwst.
    + destruct (game_info !! "configpath") as [configpath|] eqn:Hc; [|done].
      destruct (Py.truthy configpath) eqn:Htc; injection Hstep as <- <-.
      * simpl in Htr. apply app_inv_head in Htr as <-.
        apply list_elem_of_singleton in Hin. injection Hin as -> ->.
        right. split_and!; try done. by exists configpath.
      * apply trace_extension_nil in Htr as ->. by apply elem_of_nil in Hin.
    + injection Hstep as <- <-.
      apply trace_extension_nil in Htr as ->. by apply elem_of_nil in Hin.
  - intros (r & sid & inst & Hr & Hs & Hi & Ht & Hcase).
    destruct acc as [installed uninstalled].
    rewrite (steam_local_step_install _ _ _ _ _ _ _ _ r sid inst) by done.
    destruct Hcase as [[-> Hst]|(-> & Hst & Hwst & configpath & Hc & Htc)].
    + rewrite bool_decide_eq_true_2 by done.
      eexists _, _, _, (Py.str sid). split_and!; [done..|].
      apply list_elem_of_here.
    + rewrite bool_decide_eq_false_2, bool_decide_eq_true_2, Hc, Htc by done.
      eexists _, _, _, (Py.str sid). split_and!; [done..|].
      apply list_elem_of_here.
Qed.

(** X3: the loop body raises only [KeyError]: for [runner], [steamid] or
    [installed], in this order, when the entry lacks the key (also when the
    branch taken would not use it), and for [configpath] only on an entry
    not marked installed whose id Wine Steam alone reports. *)
Theorem steam_local_step_raises steamrunner winesteamrunner acc game_info w
    e :
  steam_local_step steamrunner winesteamrunner
    (get_installed_steamapps steamrunner)
    (get_installed_steamapps winesteamrunner) acc game_info w = inl e
  ↔ ∃ key, e = KeyError key
           ∧ steam_local_key_error steamrunner winesteamrunner game_info key.
Proof.
  unfold steam_local_key_error. destruct acc as [installed uninstalled].
  destruct (game_info !! "runner") as [r|] eqn:Hr; cycle 1.
  { unfold steam_local_step, bind, getitem, raise. rewrite Hr. simpl.
    split.
    - intros [= <-]. exists "runner". split; [done|]. by left.
    - intros (key & -> & [[_ ->]|[([? ?] & _)|[([? ?] & _)|Hk]]]);
        try done. by destruct Hk as (? & ? & [? ?] & _). }
  destruct (game_info !! "steamid") as [sid|] eqn:Hs; cycle 1.
  { unfold steam_local_step, bind, getitem, raise, ret. rewrite Hr, Hs.
    simpl. split.
    - intros [= <-]. exists "steamid". split; [done|]. right. left.
      split_and!; eauto.
    - intros (key & -> & [[? _]|[(_ & _ & ->)|[(_ & [? ?] & _)|Hk]]]);
        try done. by destruct Hk as (? & ? & _ & ? & _). }
  destruct (game_info !! "installed") as [inst|] eqn:Hi; cycle 1.
  { unfold steam_local_step, bind, getitem, raise, ret. rewrite Hr, Hs, Hi.
    simpl. split.
    - intros [= <-]. exists "installed". split; [done|]. right. right. left.
      split_and!; eauto.
    - intros (key & -> & [[? _]|[(_ & ? & _)|[(_ & _ & _ & ->)|Hk]]]);
        try done. by destruct Hk as (? & ? & _ & _ & ? & _). }
  destruct (Py.truthy inst) eqn:Ht.
  { rewrite (steam_local_step_uninstall _ _ _ _ _ _ _ _ r sid inst) by done.
    split.
    - by destruct (negb _ && _).
    - intros (key & -> & [[? _]|[(_ & ? & _)|[(_ & _ & ? & _)|Hk]]]);
        try done.
      destruct Hk as (sid' & inst' & _ & _ & Hi' & Ht' & _). congruence. }
  rewrite (steam_local_step_install _ _ _ _ _ _ _ _ r sid inst) by done.
  split.
  - case_bool_decide as Hst; [done|]. case_bool_decide as Hwst; [|done].
    destruct (game_info !! "configpath") as [configpath|] eqn:Hc.
    { by destruct (Py.truthy configpath). }
    intros [= <-]. exists "configpath". split; [done|]. do 3 right.
    exists sid, inst. split_and!; eauto.
  - intros (key & -> & [[? _]|[(_ & ? & _)|[(_ & _ & ? & _)|Hk]]]);
      try done.
    destruct Hk as (sid' & inst' & _ & [= <-] & _ & _ & Hst & Hwst & Hc & ->).
    by rewrite bool_decide_eq_false_2, bool_decide_eq_true_2, Hc by done.
Qed.

(** What a turn of the loop that returns has done. *)
Lemma steam_local_step_effect steamrunner winesteamrunner steamapps
    winesteamapps acc game_info w acc' w' :
  steam_local_step steamrunner winesteamrunner steamapps winesteamapps
    acc game_info w = inr (acc', w') →
  (acc' = acc ∧ w' = w)
  ∨ (∃ sid runner_name,
       (runner_name = "steam" ∨ runner_name = "winesteam")
       ∧ acc' = (acc.1 ∪ {[(steam_mark_as_installed (db w) sid runner_name
                              game_info).2]}, acc.2)
       ∧ w' = after_mark_installed w sid runner_name game_info)
  ∨ (acc' = (acc.1, acc.2 ∪ {[(steam_mark_as_uninstalled (db w)
                                 game_info).2]})
     ∧ w' = after_mark_uninstalled w game_info).
Proof.
  intros Hstep.
  destruct (steam_local_step_keys _ _ _ _ _ _ _ _ _ Hstep)
    as (r & sid & inst & Hr & Hs & Hi).
  destruct acc as [installed uninstalled].
  destruct (Py.truthy inst) eqn:Ht.
  - rewrite (steam_local_step_uninstall _ _ _ _ _ _ _ _ r sid inst)
      in Hstep by done.
    destruct (negb _ && _); injection Hstep as <- <-; [|by left].
    right. right. done.
  - rewrite (steam_local_step_install _ _ _ _ _ _ _ _ r sid inst)
      in Hstep by done.
    case_bool_decide.
    { injection Hstep as <- <-. right. left.
      exists (Py.str sid), "steam". split_and!; eauto. }
    case_bool_decide; [|injection Hstep as <- <-; by left].
    destruct (game_info !! "configpath") as [configpath|]; [|done].
    destruct (Py.truthy configpath); injection Hstep as <- <-; [|by left].
    right. left. exists (Py.str sid), "winesteam". split_and!; eauto.
Qed.

Lemma mark_event_of_further game_info l e :
  mark_event_of l e → mark_event_of (game_info :: l) e.
Proof.
  destruct e; simpl; try done.
  - intros [? ?]. split; [by apply list_elem_of_further|done].
  - by apply list_elem_of_further.
Qed.

Lemma steam_local_loop_requests steamrunner winesteamrunner steamapps
    winesteamapps l acc w acc' w' :
  for_each l
    (steam_local_step steamrunner winesteamrunner steamapps winesteamapps)
    acc w = inr (acc', w') →
  library w' = library w
  ∧ acc.1 ⊆ acc'.1 ∧ acc.2 ⊆ acc'.2
  ∧ ∃ evs, trace w' = trace w ++ evs
           ∧ Forall (mark_event_of l) evs
           ∧ (length evs ≤ length l)%nat
           ∧ (evs = [] → acc' = acc)
           ∧ (evs ≠ [] → acc'.1 ∪ acc'.2 ≠ ∅).
Proof.
  revert acc w. induction l as [|game_info l IH]; intros acc w; simpl.
  - unfold ret. intros [= <- <-]. split_and!; [done..|].
    exists []. rewrite app_nil_r. split_and!; done.
  - unfold bind.
    destruct (steam_local_step _ _ _ _ acc game_info w)
      as [|[acc1 w1]] eqn:Hstep; [done|].
    intros Hloop.
    apply IH in Hloop
      as (Hlib & Hsub1 & Hsub2 & evs & Htr & Hall & Hlen & Hnil & Hne).
    apply steam_local_step_effect in Hstep
      as [[-> ->]|[(sid & rn & Hrn & -> & ->)|[-> ->]]].
    + split_and!; [done..|]. exists evs. split_and!; try done.
      * eapply Forall_impl; [done|]. apply mark_event_of_further.
      * lia.
    + simpl in *. split_and!; [done|set_solver..|].
      exists (EMarkAsInstalled sid rn game_info :: evs).
      rewrite Htr, <- app_assoc. split_and!; try done.
      * constructor.
        -- split; [apply list_elem_of_here|done].
        -- eapply Forall_impl; [done|]. apply mark_event_of_further.
      * simpl. lia.
      * intros _. set_solver.
    + simpl in *. split_and!; [done|set_solver..|].
      exists (EMarkAsUninstalled game_info :: evs).
      rewrite Htr, <- app_assoc. split_and!; try done.
      * constructor.
        -- apply list_elem_of_here.
        -- eapply Forall_impl; [done|]. apply mark_event_of_further.
      * simpl. lia.
      * intros _. set_solver.
Qed.

Lemma sync_steam_local_effect steamrunner winesteamrunner w res w' :
  sync_steam_local steamrunner winesteamrunner w = inr (res, w') →
  library w' = library w
  ∧ ∃ evs, trace w' = trace w ++ evs
           ∧ Forall (mark_event_of (library w)) evs
           ∧ (length evs ≤ length (library w))%nat
           ∧ (res = (∅, ∅) ↔ evs = []).
Proof.
  unfold sync_steam_local, bind, get_library_attr. intros Hloop.
  apply steam_local_loop_requests in Hloop
    as (Hlib & _ & _ & evs & Htr & Hall & Hlen & Hnil & Hne).
  split; [done|]. exists evs. split_and!; try done. split.
  - intros ->. destruct evs as [|e evs]; [done|].
    destruct Hne; [done|]. simpl. set_solver.
  - apply Hnil.
Qed.

Lemma steam_local_loop_rows steamrunner winesteamrunner steamapps
    winesteamapps l acc w acc' w' :
  for_each l
    (steam_local_step steamrunner winesteamrunner steamapps winesteamapps)
    acc w = inr (acc', w') →
  ∃ evs rows, trace w' = trace w ++ evs
              ∧ rows `sublist_of` l
              ∧ Forall2 mark_event_for rows evs.
Proof.
  revert acc w. induction l as [|game_info l IH]; intros acc w; simpl.
  - unfold ret. intros [= <- <-]. exists [], []. rewrite app_nil_r.
    split_and!; [done|constructor|constructor].
  - unfold bind.
    destruct (steam_local_step _ _ _ _ acc game_info w)
      as [|[acc1 w1]] eqn:Hstep; [done|].
    intros Hloop. apply IH in Hloop as (evs & rows & Htr & Hsub & Hall).
    apply steam_local_step_effect in Hstep
      as [[-> ->]|[(sid & rn & Hrn & -> & ->)|[-> ->]]].
    + exists evs, rows. split_and!; [done| |done]. by apply sublist_cons.
    + exists (EMarkAsInstalled sid rn game_info :: evs), (game_info :: rows).
      simpl in Htr. rewrite Htr, <- app_assoc.
      split_and!; [done|by apply sublist_skip|].
      by constructor.
    + exists (EMarkAsUninstalled game_info :: evs), (game_info :: rows).
      simpl in Htr. rewrite Htr, <- app_assoc.
      split_and!; [done|by apply sublist_skip|].
      by constructor.
Qed.

(** X4: a run of [sync_steam_local] that returns leaves [self.library] as
    it was and sends only requests to mark rows of that library installed
    (under the name [steam] or [winesteam]) or uninstalled: the rows the
    requests are about, taken in the order of the requests, are a
    subsequence of the library, so the requests follow the order of the
    library and each row gets at most one. No insert, update or media
    refresh is sent. *)
Theorem sync_steam_local_requests steamrunner winesteamrunner w res w' :
  sync_steam_local steamrunner winesteamrunner w = inr (res, w') →
  library w' = library w
  ∧ ∃ evs rows, trace w' = trace w ++ evs
                ∧ rows `sublist_of` library w
                ∧ Forall2 mark_event_for rows evs.
Proof.
  intros Hrun.
  pose proof Hrun as (Hlib & _)%sync_steam_local_effect.
  split; [done|].
  unfold sync_steam_local, bind, get_library_attr in Hrun.
  by apply steam_local_loop_rows in Hrun.
Qed.


End steam_local_more.

(** ** The requests of the loop of [sync_game_details] *)

Section details_more.
Context {DB : Type} `{!Store DB}.
Implicit Types (w : world DB) (game : dict) (updated : gset Z)
  (remote l : list dict).

Lemma details_event_of_further game l e :
  details_event_of l e → details_event_of (game :: l) e.
Proof.
  destruct e; simpl; try done.
  - intros (g & slug & ? & ? & ?). exists g, slug.
    split_and!; [by apply list_elem_of_further|done..].
  - intros [(g & ? & ?) ?]. split; [|done]. exists g.
    split; [by apply list_elem_of_further|done].
Qed.

(** What a turn of the loop that returns has requested and collected. *)
Lemma details_step_effect updated game w updated' w' :
  details_step updated game w = inr (updated', w') →
  library w' = library w
  ∧ updated ⊆ updated'
  ∧ ∃ evs, trace w' = trace w ++ evs
           ∧ Forall (details_event_of [game]) evs
           ∧ (¬ Exists is_download_icon evs → updated' = updated)
           ∧ (Exists is_download_icon evs → updated' ≠ ∅).
Proof.
  intros Hstep. apply details_step_inv in Hstep.
  destruct Hstep as [slug Hslug Hloc
                 |slug local_game ru lu Hslug Hloc Hne Hru Hlu Hgt Hb
                 |slug local_game ru lu name runner year steamid
                    Hslug Hloc Hne Hru Hlu Hgt Hn Hr Hy Hst
                 |slug local_game ru lu name runner year steamid
                    Hslug Hloc Hne Hru Hlu Hgt Hb Hn Hr Hy Hst].
  - split_and!; [done..|]. exists []. rewrite app_nil_r.
    split_and!; [done..|]. by intros ?%Exists_nil.
  - split_and!; [done..|]. exists []. rewrite app_nil_r.
    split_and!; [done..|]. by intros ?%Exists_nil.
  - subst args. split_and!; [done|set_solver|]. eexists. split; [done|].
    split_and!.
    + assert (∃ g, g ∈ [game] ∧ g !! "slug" = Some slug) as Hg
        by (exists game; split; [apply list_elem_of_here|done]).
      apply Forall_cons. split.
      { exists game, slug. split_and!; [apply list_elem_of_here|done..]. }
      apply Forall_cons. split; [by split; [|left]|].
      apply Forall_cons. split; [by split; [|right]|]. constructor.
    + intros Hno. destruct Hno. apply Exists_cons. right.
      by apply Exists_cons; left.
    + intros _. set_solver.
  - subst args. split_and!; [done..|]. eexists. split; [done|].
    split_and!.
    + apply Forall_cons. split; [|constructor].
      exists game, slug. split_and!; [apply list_elem_of_here|done..].
    + done.
    + intros [Hi|Hi%Exists_nil]%Exists_cons; done.
Qed.

Lemma details_loop_requests l updated w updated' w' :
  for_each l details_step updated w = inr (updated', w') →
  library w' = library w
  ∧ updated ⊆ updated'
  ∧ ∃ evs, trace w' = trace w ++ evs
           ∧ Forall (details_event_of l) evs
           ∧ (¬ Exists is_download_icon evs → updated' = updated)
           ∧ (Exists is_download_icon evs → updated' ≠ ∅).
Proof.
  revert updated w. induction l as [|game l IH]; intros updated w; simpl.
  - unfold ret. intros [= <- <-]. split_and!; [done..|].
    exists []. rewrite app_nil_r. split_and!; [done..|].
    by intros ?%Exists_nil.
  - unfold bind.
    destruct (details_step updated game w) as [|[updated1 w1]] eqn:Hstep;
      [done|].
    intros Hloop.
    apply details_step_effect in Hstep
      as (Hlib1 & Hsub1 & evs1 & Htr1 & Hall1 & Hno1 & Hex1).
    apply IH in Hloop as (Hlib & Hsub & evs & Htr & Hall & Hno & Hex).
    split_and!; [congruence|set_solver|].
    exists (evs1 ++ evs). rewrite Htr, Htr1, <- app_assoc.
    split_and!; [done| | |].
    + apply Forall_app. split.
      * eapply Forall_impl; [done|]. intros e He.
        destruct e; simpl in *; try done.
        -- destruct He as (g & slug & ->%list_elem_of_singleton & ? & ?).
           exists game, slug. split_and!; [apply list_elem_of_here|done..].
        -- destruct He as [(g & ->%list_elem_of_singleton & ?) ?].
           split; [|done].
           exists game. split; [apply list_elem_of_here|done].
      * eapply Forall_impl; [done|]. apply details_event_of_further.
    + intros Hnone. rewrite Exists_app in Hnone.
      rewrite Hno, Hno1; [done|tauto..].
    + intros [Hi|Hi]%Exists_app; [|by apply Hex].
      apply Hex1 in Hi. set_solver.
Qed.

Lemma sync_game_details_effect remote w updated w' :
  sync_game_details remote w = inr (updated, w') →
  library w' = library w
  ∧ ∃ evs, trace w' = trace w ++ evs
           ∧ Forall (details_event_of remote) evs
           ∧ (updated = ∅ ↔ ¬ Exists is_download_icon evs).
Proof.
  unfold sync_game_details. case_bool_decide.
  - unfold ret. intros [= <- <-]. split; [done|]. exists [].
    rewrite app_nil_r. split_and!; [done..|].
    split; [|done]. by intros _ ?%Exists_nil.
  - intros Hloop.
    apply details_loop_requests in Hloop
      as (? & _ & evs & ? & ? & Hno & Hex).
    split; [done|]. exists evs. split_and!; [done..|].
    split; [|done]. intros -> Hi. by apply Hex in Hi.
Qed.

(** X6: a run of [sync_game_details] that returns leaves [self.library] as
    it was and sends only [pga.add_or_update] requests keyed by the slug of
    an entry of the catalog and banner or icon refreshes for such a slug;
    it sends no insert and no install or uninstall request. *)
Theorem sync_game_details_requests remote w updated w' :
  sync_game_details remote w = inr (updated, w') →
  library w' = library w
  ∧ ∃ evs, trace w' = trace w ++ evs
           ∧ Forall (details_event_of remote) evs.
Proof.
  intros (Hlib & evs & Htr & Hall & _)%sync_game_details_effect.
  split; [done|]. by exists evs.
Qed.

(** X7: the set returned by [sync_game_details] is empty exactly when the
    run has requested no media refresh. *)
Theorem updated_empty_iff_no_media_refresh remote w updated w' evs :
  sync_game_details remote w = inr (updated, w') →
  trace w' = trace w ++ evs →
  updated = ∅ ↔ ¬ Exists is_download_icon evs.
Proof.
  intros (_ & evs' & Htr' & _ & Hiff)%sync_game_details_effect Htr.
  rewrite Htr' in Htr. by apply app_inv_head in Htr as <-.
Qed.

Lemma details_loop_unknown l updated w :
  Forall (λ game, ∃ slug, game !! "slug" = Some slug
                          ∧ pga_get_game_by_field (db w) slug "slug" = ∅) l →
  for_each l details_step updated w = inr (updated, w).
Proof.
  induction 1 as [|game l (slug & Hslug & Hloc) _ IH]; [done|].
  simpl. unfold bind.
  rewrite (details_outcome_step updated game w updated w); [done|].
  by apply (details_not_local updated game w slug).
Qed.

(** X8: when the store knows none of the slugs of the catalog,
    [sync_game_details] returns the empty set and sends nothing; only the
    slug of each entry is read, so entries lacking the other fields raise
    no error. *)
Theorem sync_game_details_unknown remote w :
  Forall (λ game, ∃ slug, game !! "slug" = Some slug
                          ∧ pga_get_game_by_field (db w) slug "slug" = ∅)
         remote →
  sync_game_details remote w = inr (∅, w).
Proof.
  intros Hall. unfold sync_game_details. case_bool_decide; [done|].
  by apply details_loop_unknown.
Qed.

End details_more.

(** ** The batch of [sync_missing_games] *)

Section missing_more.
Context {DB : Type} `{!Store DB}.
Implicit Types (w : world DB) (game : dict) (remote : list dict)
  (not_in_local : gset pyval).

Lemma missing_record_fields slug game w r w' :
  missing_record slug game w = inr (r, w') → has_record_fields game.
Proof.
  unfold missing_record, has_record_fields, bind, getitem, ret, raise.
  intros Hr. repeat case_match; simplify_eq. split_and!; eauto.
Qed.

Lemma missing_record_Some slug game w :
  game !! "slug" = Some slug → has_record_fields game →
  missing_record slug game w = inr (missing_record_of game, w).
Proof.
  intros Hs ([name Hn] & [year Hy] & [ru Hu] & [sid Hst]).
  unfold missing_record, missing_record_of, updated_of, bind.
  rewrite (getitem_Some _ _ _ _ Hn), (getitem_Some _ _ _ _ Hy),
    (getitem_Some _ _ _ _ Hu), (getitem_Some _ _ _ _ Hst),
    (slug_of_Some _ _ Hs), Hn, Hy, Hu, Hst.
  done.
Qed.

Lemma missing_record_of_copies game :
  is_Some (game !! "slug") → has_record_fields game →
  copies_remote_fields (missing_record_of game) game.
Proof.
  intros [slug Hs] Hf. pose proof Hf as ([name Hn] & [year Hy] & [ru Hu]
                                        & [sid Hst]).
  unfold copies_remote_fields, missing_record_of, updated_of.
  rewrite (slug_of_Some _ _ Hs), Hs, Hn, Hy, Hu, Hst.
  split_and!; try done; try (by eauto).
  intros key. rewrite !lookup_insert_is_Some', lookup_empty, !elem_of_cons.
  intros Hk. destruct_or!; eauto 10. by apply is_Some_None in Hk.
Qed.

Lemma missing_loop_fields not_in_local remote acc w missing w' :
  for_each remote (missing_step not_in_local) acc w = inr (missing, w') →
  Forall (λ game, is_Some (game !! "slug")) remote
  ∧ Forall has_record_fields (missing_games not_in_local remote).
Proof.
  unfold missing_games.
  revert acc. induction remote as [|game remote IH]; intros acc; simpl.
  - intros _. by split.
  - unfold bind at 1.
    destruct (missing_step not_in_local acc game w) as [|[acc1 w1]] eqn:Hs;
      [done|].
    unfold missing_step, bind in Hs.
    destruct (getitem game "slug" w) as [|[slug w2]] eqn:Hg; [done|].
    apply getitem_inv in Hg as [Hg ->].
    rewrite filter_cons, (slug_of_Some _ _ Hg).
    case_bool_decide as Hin.
    + destruct (missing_record slug game w) as [|[r w2]] eqn:Hr; [done|].
      pose proof (missing_record_fields _ _ _ _ _ Hr) as Hf.
      apply (missing_record_eq _ _ _ _ _ Hg) in Hr as [-> ->].
      unfold ret in Hs. injection Hs as <- <-.
      intros [Hall Hmiss]%IH. rewrite decide_True by done.
      split; constructor; eauto.
    + unfold ret in Hs. injection Hs as <- <-.
      intros [Hall Hmiss]%IH. rewrite decide_False by done.
      split; [constructor; eauto|done].
Qed.

Lemma missing_loop_ok not_in_local remote acc w :
  Forall (λ game, is_Some (game !! "slug")) remote →
  Forall has_record_fields (missing_games not_in_local remote) →
  for_each remote (missing_step not_in_local) acc w
  = inr (acc ++ (missing_record_of <$> missing_games not_in_local remote),
         w).
Proof.
  unfold missing_games. intros Hall. revert acc.
  induction Hall as [|game remote [slug Hslug] _ IH]; intros acc; simpl.
  - intros _. by rewrite app_nil_r.
  - rewrite filter_cons, (slug_of_Some _ _ Hslug).
    unfold bind at 1, missing_step, bind.
    rewrite (getitem_Some _ _ _ _ Hslug).
    case_bool_decide as Hin.
    + rewrite decide_True by done. intros [Hf Hmiss]%Forall_cons.
      rewrite (missing_record_Some _ _ _ Hslug Hf). unfold ret.
      rewrite IH by done. by rewrite fmap_cons, <- app_assoc.
    + rewrite decide_False by done. intros Hmiss. unfold ret.
      by rewrite IH.
Qed.

(** X9: when slugs are missing locally, [sync_missing_games] sends one
    [pga.add_games_bulk] request and returns the set of the identifiers the
    store gives back; the batch holds, for each remote entry whose slug is
    missing and in the order of the catalog, a record with the name, slug,
    year, update time and platform id of that entry and nothing else. *)
Theorem missing_batch_copies_remote not_in_local remote w added w' :
  not_in_local ≠ ∅ →
  sync_missing_games not_in_local remote w = inr (added, w') →
  ∃ batch,
    w' = after_insert w batch
    ∧ added = list_to_set (pga_add_games_bulk (db w) batch).2
    ∧ Forall2 copies_remote_fields batch (missing_games not_in_local remote).
Proof.
  intros Hne Hm. pose proof Hm as Hm'.
  apply sync_missing_games_inv in Hm as [(? & _)|(_ & -> & ->)]; [done|].
  eexists. split_and!; [done..|].
  unfold sync_missing_games in Hm'. rewrite bool_decide_eq_false_2 in Hm'
    by done.
  unfold bind in Hm'.
  destruct (for_each remote _ [] w) as [|[missing w1]] eqn:Hloop; [done|].
  apply missing_loop_fields in Hloop as [Hall Hmiss].
  apply Forall2_fmap_l, Forall_Forall2_diag.
  rewrite Forall_forall in Hmiss. apply Forall_forall. intros game Hin.
  apply missing_record_of_copies; [|by apply Hmiss].
  apply list_elem_of_filter in Hin as [_ Hin].
  rewrite Forall_forall in Hall. by apply Hall.
Qed.

(** X10: [sync_missing_games] returns (rather than raising [KeyError])
    exactly when no slug is missing locally, in which case the catalog is
    not read at all, or every remote entry has a slug and every entry whose
    slug is missing has a name, a year, an update time and a platform id. *)
Theorem sync_missing_games_returns_iff not_in_local remote w :
  (∃ added w', sync_missing_games not_in_local remote w = inr (added, w'))
  ↔ not_in_local = ∅
    ∨ (Forall (λ game, is_Some (game !! "slug")) remote
       ∧ Forall has_record_fields (missing_games not_in_local remote)).
Proof.
  unfold sync_missing_games. case_bool_decide as He.
  { split; [by left|]. intros _. by eexists _, _. }
  split.
  - intros (added & w' & Hm). right. unfold bind in Hm.
    destruct (for_each remote _ [] w) as [|[missing w1]] eqn:Hloop; [done|].
    by apply missing_loop_fields in Hloop.
  - intros [?|[Hall Hmiss]]; [done|]. unfold bind.
    rewrite missing_loop_ok by done. unfold request, ret.
    destruct (pga_add_games_bulk _ _). by eexists _, _.
Qed.

End missing_more.

(** ** The remote pass and the full sync *)

Section remote_more.
Context {DB : Type} `{!Store DB}.
Implicit Types (w : world DB) (game : dict) (remote l : list dict).

Lemma comprehension_slug_raises l w :
  Exists (λ game : dict, game !! "slug" = None) l →
  comprehension (λ game, getitem game "slug") l w = inl (KeyError "slug").
Proof.
  induction 1 as [game l Hnone|game l _ IH]; simpl; unfold bind.
  - unfold getitem. by rewrite Hnone.
  - unfold getitem at 1. destruct (game !! "slug"); [|done].
    unfold ret. by rewrite IH.
Qed.

Lemma slugs_all_or_missing l :
  Forall (λ game : dict, is_Some (game !! "slug")) l
  ∨ Exists (λ game : dict, game !! "slug" = None) l.
Proof.
  induction l as [|game l [IH|IH]].
  - left. constructor.
  - destruct (game !! "slug") as [slug|] eqn:Hs.
    + left. constructor; [by rewrite Hs|done].
    + right. by constructor.
  - right. by apply Exists_cons_tl.
Qed.

(** X11: whoever raised or failed in the fetch, a library row or a catalog
    entry without a slug makes [sync_from_remote] raise [KeyError] for
    [slug]: the slugs of the library are read before the fetch and a failed
    fetch does not excuse them. *)
Theorem sync_from_remote_slug_error api w :
  Exists (λ game : dict, game !! "slug" = None)
         (library w ++ catalog_of api) →
  sync_from_remote api w = inl (KeyError "slug").
Proof.
  intros [Hlib|Hcat]%Exists_app;
    unfold sync_from_remote, bind, get_library_attr.
  - by rewrite comprehension_slug_raises.
  - destruct (slugs_all_or_missing (library w)) as [Hall|Hex].
    + rewrite comprehension_slug by done.
      fold (catalog_of api). by rewrite comprehension_slug_raises.
    + by rewrite comprehension_slug_raises.
Qed.

(** The remote pass, phase by phase. *)
Lemma sync_from_remote_phases api w added updated w' :
  sync_from_remote api w = inr ((added, updated), w') →
  ∃ w1 w2,
    sync_missing_games
      (list_to_set (slug_of <$> catalog_of api)
       ∖ list_to_set (slug_of <$> library w)) (catalog_of api) w
    = inr (added, w1)
    ∧ sync_game_details (catalog_of api) w1 = inr (updated, w2)
    ∧ w' = (if bool_decide (added = ∅) then w2
            else World (pga_get_games (db w2)) (db w2) (trace w2)).
Proof.
  unfold sync_from_remote, bind, get_library_attr. fold (catalog_of api).
  destruct (comprehension _ (library w) w) as [|[local_slugs w0]] eqn:Hl;
    [done|].
  apply comprehension_slug_inv in Hl as (_ & -> & ->).
  destruct (comprehension _ (catalog_of api) w)
    as [|[remote_slugs w0]] eqn:Hr; [done|].
  apply comprehension_slug_inv in Hr as (_ & -> & ->).
  destruct (sync_missing_games _ (catalog_of api) w)
    as [|[added1 w1]] eqn:Hm; [done|].
  destruct (sync_game_details (catalog_of api) w1)
    as [|[updated1 w2]] eqn:Hd; [done|].
  unfold query, set_library_attr, ret.
  case_bool_decide; simpl; intros [= <- <- <-]; exists w1, w2.
  - by rewrite bool_decide_eq_true_2.
  - by rewrite bool_decide_eq_false_2.
Qed.

(** X12: after [sync_from_remote], [self.library] is what [pga.get_games]
    returns on the store as the pass leaves it when the pass added games,
    and is otherwise untouched, also when entries were updated. *)
Theorem library_reloaded_iff_added api w added updated w' :
  sync_from_remote api w = inr ((added, updated), w') →
  library w' = if bool_decide (added = ∅) then library w
               else pga_get_games (db w').
Proof.
  intros (w1 & w2 & Hm & Hd & ->)%sync_from_remote_phases.
  case_bool_decide; [|done].
  apply sync_game_details_effect in Hd as [-> _].
  by apply sync_missing_games_inv in Hm as [(_ & _ & ->)|(_ & -> & _)].
Qed.

(** X13: [sync_from_remote] sends an insert request exactly when the slug
    of some catalog entry is not among the slugs of [self.library]; it
    sends one, before every update and media refresh, and it sends no
    install or uninstall request. *)
Theorem sync_from_remote_requests api w added updated w' :
  sync_from_remote api w = inr ((added, updated), w') →
  ∃ pre evs,
    trace w' = trace w ++ pre ++ evs
    ∧ Forall (details_event_of (catalog_of api)) evs
    ∧ ((pre = []
        ∧ ∀ game, game ∈ catalog_of api →
            slug_of game ∈ slug_of <$> library w)
       ∨ ((∃ batch, pre = [EAddGamesBulk batch])
          ∧ ∃ game, game ∈ catalog_of api
                    ∧ slug_of game ∉ slug_of <$> library w)).
Proof.
  intros (w1 & w2 & Hm & Hd & ->)%sync_from_remote_phases.
  apply sync_game_details_effect in Hd as (_ & evs & Htr2 & Hall & _).
  assert (trace (if bool_decide (added = ∅) then w2
                 else World (pga_get_games (db w2)) (db w2) (trace w2))
          = trace w2) as -> by by case_bool_decide.
  apply sync_missing_games_inv in Hm as [(Hnil & _ & ->)|(Hnil & -> & _)].
  - exists [], evs. split_and!; [done..|]. left. split; [done|].
    intros game Hin. apply (list_elem_of_fmap_2 slug_of) in Hin.
    destruct (decide (slug_of game ∈ slug_of <$> library w)); [done|].
    assert (slug_of game
            ∈ (list_to_set (slug_of <$> catalog_of api)
               ∖ list_to_set (slug_of <$> library w) : gset pyval)) as Hd
      by (rewrite elem_of_difference, !elem_of_list_to_set; done).
    rewrite Hnil in Hd. by apply elem_of_empty in Hd.
  - eexists [_], evs. simpl in Htr2. rewrite Htr2, <- app_assoc.
    split_and!; [done..|]. right. split; [by eexists|].
    apply set_choose_L in Hnil as [slug Hslug].
    rewrite elem_of_difference, !elem_of_list_to_set in Hslug.
    destruct Hslug as [(game & -> & Hin)%list_elem_of_fmap Hnin].
    by exists game.
Qed.

(** X14: a full sync runs the remote pass, then the installation pass on
    the library the remote pass leaves: every install or uninstall request
    comes after the requests of the remote pass and is about a row of that
    library, which is the one held before unless games were added; and the
    pair of sets it returns last is empty exactly when no such request was
    sent. *)
Theorem sync_all_phases api steamrunner winesteamrunner w added updated
    local w' :
  sync_all api steamrunner winesteamrunner w
  = inr (((added, updated), local), w') →
  ∃ w1 evs,
    sync_from_remote api w = inr ((added, updated), w1)
    ∧ library w1 = (if bool_decide (added = ∅) then library w
                    else pga_get_games (db w1))
    ∧ library w' = library w1
    ∧ trace w' = trace w1 ++ evs
    ∧ Forall (mark_event_of (library w1)) evs
    ∧ (local = (∅, ∅) ↔ evs = []).
Proof.
  unfold sync_all, bind.
  destruct (sync_from_remote api w) as [|[[added1 updated1] w1]] eqn:Hr;
    [done|].
  destruct (sync_local steamrunner winesteamrunner w1)
    as [|[local1 w2]] eqn:Hl; [done|].
  unfold ret. intros [= <- <- <- <-].
  assert (library w1 = (if bool_decide (added1 = ∅) then library w
                        else pga_get_games (db w1))) as Hlib.
  { pose proof Hr as (wa & wb & Hm & Hd & ->)%sync_from_remote_phases.
    case_bool_decide; [|done].
    apply sync_game_details_effect in Hd as [-> _].
    by apply sync_missing_games_inv in Hm as [(_ & _ & ->)|(_ & -> & _)]. }
  apply sync_steam_local_effect in Hl
    as (Hlib2 & evs & Htr & Hall & _ & Hiff).
  exists w1, evs. by split_and!.
Qed.

End remote_more.

(** ** Errors of the loop of [sync_game_details] *)

Section details_errors.
Context {DB : Type} `{!Store DB}.
Implicit Types (w : world DB) (game local_game : dict) (updated : gset Z).

Lemma update_kwargs_raises slug game local_game w e :
  is_Some (game !! "updated") →
  update_kwargs slug game local_game w = inl e
  ↔ ∃ key, e = KeyError key
      ∧ ((local_game !! "name" = None ∧ key = "name")
         ∨ (is_Some (local_game !! "name")
            ∧ local_game !! "runner" = None ∧ key = "runner")
         ∨ (is_Some (local_game !! "name")
            ∧ is_Some (local_game !! "runner")
            ∧ game !! "year" = None ∧ key = "year")
         ∨ (is_Some (local_game !! "name")
            ∧ is_Some (local_game !! "runner")
            ∧ is_Some (game !! "year")
            ∧ game !! "steamid" = None ∧ key = "steamid")).
Proof.
  intros [ru Hru]. unfold update_kwargs, bind, getitem, ret, raise.
  rewrite Hru.
  destruct (local_game !! "name") as [name|]; simpl;
    [|split; [intros [= <-]; eauto 10|
              intros (key & -> & Hk); destruct_or!; destruct_and!;
                subst; try done; by destruct select (is_Some None)]].
  destruct (local_game !! "runner") as [runner|]; simpl;
    [|split; [intros [= <-]; eauto 10|
              intros (key & -> & Hk); destruct_or!; destruct_and!;
                subst; try done; by destruct select (is_Some None)]].
  destruct (game !! "year") as [year|]; simpl;
    [|split; [intros [= <-]; eauto 10|
              intros (key & -> & Hk); destruct_or!; destruct_and!;
                subst; try done; by destruct select (is_Some None)]].
  destruct (game !! "steamid") as [steamid|]; simpl;
    [|split; [intros [= <-]; eauto 10|
              intros (key & -> & Hk); destruct_or!; destruct_and!;
                subst; try done; by destruct select (is_Some None)]].
  split; [done|]. intros (key & -> & Hk). destruct_or!; destruct_and!; done.
Qed.

(** X15: the body of the loop of [sync_game_details] raises only
    [KeyError]: for [slug] when the entry has none; for [updated] when the
    entry is found locally and it or the local row lacks that field; and,
    only when an update is due, for the first field missing among the name
    and the runner of the local row and the year and the platform id of the
    entry. An entry that is not found locally, or needs no update, raises
    nothing for the other fields. *)
Theorem details_step_raises updated game w e :
  details_step updated game w = inl e
  ↔ ∃ key, e = KeyError key
      ∧ details_key_error game
          (pga_get_game_by_field (db w) (slug_of game) "slug") key.
Proof.
  unfold details_key_error, details_step, bind.
  destruct (game !! "slug") as [slug|] eqn:Hslug; cycle 1.
  { unfold getitem. rewrite Hslug. unfold raise. split.
    - intros [= <-]. exists "slug". split; [done|]. by left.
    - intros (key & -> & [[_ ->]|([? ?] & _)]); done. }
  rewrite (getitem_Some _ _ _ _ Hslug), (slug_of_Some _ _ Hslug).
  unfold query, dict_truthy. rewrite negb_involutive.
  set (local_game := pga_get_game_by_field (db w) slug "slug").
  case_bool_decide as Hloc.
  { unfold ret. split; [done|].
    intros (key & -> & [[? _]|(_ & ? & _)]); done. }
  destruct (game !! "updated") as [ru|] eqn:Hru; cycle 1.
  { unfold sync_flags, bind, getitem, raise. rewrite Hru. split.
    - intros [= <-]. exists "updated". split; [done|]. right.
      split_and!; eauto.
    - intros (key & -> & [[? _]|(_ & _ & [[-> _]|Hk])]); try done.
      by destruct Hk as (? & ? & ? & _). }
  destruct (local_game !! "updated") as [lu|] eqn:Hlu; cycle 1.
  { unfold sync_flags, bind, getitem, raise, ret. rewrite Hru, Hlu. split.
    - intros [= <-]. exists "updated". split; [done|]. right.
      split_and!; eauto.
    - intros (key & -> & [[? _]|(_ & _ & [[-> _]|Hk])]); try done.
      by destruct Hk as (? & ? & _ & ? & _). }
  rewrite (sync_flags_eq _ _ ru lu) by done.
  assert ((if Py.gt ru lu then (true, true)
           else if existsb (backfills game) (map_to_list local_game)
                then (true, false) else (false, true)).1 = true
          ↔ Py.gt ru lu = true ∨ backfillable game local_game) as Hdue.
  { rewrite <- existsb_backfills.
    destruct (Py.gt ru lu), (existsb _ _); naive_solver. }
  destruct (if Py.gt ru lu then _ else _) as [sync sync_icons].
  simpl in Hdue. destruct sync; simpl.
  - destruct (update_kwargs slug game local_game w) as [e'|[args w1]] eqn:Hk.
    + apply update_kwargs_raises in Hk as (key & -> & Hk); [|by eauto].
      split.
      * intros [= <-]. exists key. split; [done|]. right.
        split_and!; [by eauto|done|]. right. exists ru, lu. split_and!;
          try done. by apply Hdue.
      * intros (key' & -> & [[? _]|(_ & _ & [[-> [?|?]]|Hk'])]); try done.
        destruct Hk' as (? & ? & _ & _ & _ & Hk').
        f_equal. f_equal.
        destruct_or!; destruct_and!; subst; try done;
          repeat match goal with
                 | H : is_Some (_ !! _) |- _ => destruct H
                 end; congruence.
    + unfold request, emit, ret.
      destruct (pga_add_or_update _ _). destruct sync_icons; simpl.
      * split; [done|].
        intros (key' & -> & [[? _]|(_ & _ & [[-> [?|?]]|Hk'])]); try done.
        destruct Hk' as (? & ? & _ & _ & _ & Hk').
        assert (∃ e', update_kwargs slug game local_game w = inl e')
          as [e' He']; [|congruence].
        eexists. apply update_kwargs_raises; [by eauto|]. eauto.
      * split; [done|].
        intros (key' & -> & [[? _]|(_ & _ & [[-> [?|?]]|Hk'])]); try done.
        destruct Hk' as (? & ? & _ & _ & _ & Hk').
        assert (∃ e', update_kwargs slug game local_game w = inl e')
          as [e' He']; [|congruence].
        eexists. apply update_kwargs_raises; [by eauto|]. eauto.
  - unfold ret. split; [done|].
    intros (key' & -> & [[? _]|(_ & _ & [[-> [?|?]]|Hk'])]); try done.
    destruct Hk' as (ru' & lu' & [= <-] & [= <-] & Hd & _).
    by apply Hdue in Hd.
Qed.

End details_errors.

(** ** A host without Steam *)

Section no_steam.
Context {DB : Type} `{!Store DB}.
Implicit Types (w : world DB) (game_info : dict).

Lemma steam_local_step_no_runner steamrunner winesteamrunner acc game_info
    w :
  is_installed steamrunner = false → is_installed winesteamrunner = false →
  has_state_fields game_info →
  steam_local_step steamrunner winesteamrunner
    (get_installed_steamapps steamrunner)
    (get_installed_steamapps winesteamrunner) acc game_info w
  = inr (acc, w).
Proof.
  intros Hst Hwst ([r Hr] & [sid Hs] & [inst Hi]).
  assert (get_installed_steamapps steamrunner = []) as ->
    by (unfold get_installed_steamapps; by rewrite Hst).
  assert (get_installed_steamapps winesteamrunner = []) as ->
    by (unfold get_installed_steamapps; by rewrite Hwst).
  destruct acc as [installed uninstalled].
  destruct (Py.truthy inst) eqn:Ht.
  - rewrite (steam_local_step_uninstall _ _ _ _ _ _ _ _ r sid inst) by done.
    rewrite Hst, Hwst. simpl.
    unfold Py.mem, Py.eq. simpl.
    by repeat case_bool_decide.
  - by rewrite (steam_local_step_install _ _ _ _ _ _ _ _ r sid inst).
Qed.

Lemma steam_local_loop_no_runner steamrunner winesteamrunner l acc w :
  is_installed steamrunner = false → is_installed winesteamrunner = false →
  Forall has_state_fields l →
  for_each l
    (steam_local_step steamrunner winesteamrunner
       (get_installed_steamapps steamrunner)
       (get_installed_steamapps winesteamrunner)) acc w
  = inr (acc, w).
Proof.
  intros Hst Hwst. induction 1 as [|game_info l Hf _ IH]; [done|].
  simpl. unfold bind. by rewrite steam_local_step_no_runner.
Qed.

(** X16: on a host where neither Steam nor Wine Steam is installed,
    [sync_steam_local] returns two empty sets and sends no request,
    whatever the entries claim about their installation: no entry is
    concluded uninstalled because the runners are absent. *)
Theorem sync_steam_local_without_steam steamrunner winesteamrunner w :
  is_installed steamrunner = false → is_installed winesteamrunner = false →
  Forall has_state_fields (library w) →
  sync_steam_local steamrunner winesteamrunner w = inr ((∅, ∅), w).
Proof.
  intros Hst Hwst Hall. unfold sync_steam_local, bind, get_library_attr.
  by apply steam_local_loop_no_runner.
Qed.

(** X17: when the fetch of the catalog fails on a host without Steam, a
    full sync returns four empty sets and leaves the library, the store and
    the list of requests as they were. *)
Theorem sync_all_offline_without_steam e steamrunner winesteamrunner w :
  is_installed steamrunner = false → is_installed winesteamrunner = false →
  Forall (λ game : dict, is_Some (game !! "slug")) (library w) →
  Forall has_state_fields (library w) →
  sync_all (inl e) steamrunner winesteamrunner w
  = inr (((∅, ∅), (∅, ∅)), w).
Proof.
  intros Hst Hwst Hslugs Hall. unfold sync_all, bind.
  assert (sync_from_remote (inl e) w = inr ((∅, ∅), w)) as ->.
  { unfold sync_from_remote, bind, get_library_attr.
    rewrite comprehension_slug by done. simpl. unfold ret.
    assert (∅ ∖ list_to_set (slug_of <$> library w) = (∅ : gset pyval))
      as -> by set_solver.
    unfold sync_missing_games. rewrite bool_decide_eq_true_2 by done.
    unfold ret. by rewrite bool_decide_eq_true_2. }
  unfold sync_local, sync_steam_local, bind, get_library_attr.
  by rewrite steam_local_loop_no_runner.
Qed.

End no_steam.

(** ** The further properties on sample data *)

Lemma sync_steam_local_requests_witness :
  library (world_after (hl2_steam_local (sync_over [hl2_linux]))
             (sync_over [hl2_linux]))
  = library (sync_over [hl2_linux])
  ∧ ∃ evs rows,
      trace (world_after (hl2_steam_local (sync_over [hl2_linux]))
               (sync_over [hl2_linux]))
      = trace (sync_over [hl2_linux]) ++ evs
      ∧ rows `sublist_of` library (sync_over [hl2_linux])
      ∧ Forall2 mark_event_for rows evs.
Proof.
  apply (sync_steam_local_requests steam_with_220 absent_runner
           (sync_over [hl2_linux]) ({[1]}, ∅)).
  vm_compute. reflexivity.
Defined.


Lemma sync_game_details_requests_witness :
  library (world_after (doom_details (sync_over [doom_local]))
             (sync_over [doom_local]))
  = library (sync_over [doom_local])
  ∧ ∃ evs,
      trace (world_after (doom_details (sync_over [doom_local]))
               (sync_over [doom_local]))
      = trace (sync_over [doom_local]) ++ evs
      ∧ Forall (details_event_of [doom_newer]) evs.
Proof.
  apply (sync_game_details_requests [doom_newer] (sync_over [doom_local])
           {[1]}).
  vm_compute. reflexivity.
Defined.

Lemma updated_empty_iff_no_media_refresh_witness :
  ({[1]} : gset Z) = ∅
  ↔ ¬ Exists is_download_icon
        [EAddOrUpdate (doom_args 150); EDownloadIcon (VStr "doom") "banner";
         EDownloadIcon (VStr "doom") "icon"].
Proof.
  apply (updated_empty_iff_no_media_refresh [doom_newer]
           (sync_over [doom_local]) {[1]}
           (world_after (doom_details (sync_over [doom_local]))
              (sync_over [doom_local]))).
  - vm_compute. reflexivity.
  - vm_compute. reflexivity.
Defined.

Lemma sync_game_details_unknown_witness :
  sync_game_details [quake_published] (sync_over [doom_local])
  = inr (∅, sync_over [doom_local]).
Proof.
  apply (sync_game_details_unknown [quake_published]
           (sync_over [doom_local])).
  constructor; [|constructor].
  exists (VStr "quake"). split; vm_compute; reflexivity.
Defined.

Lemma missing_batch_copies_remote_witness :
  ∃ batch,
    after_insert (sync_over [doom_local]) [quake_published]
    = after_insert (sync_over [doom_local]) batch
    ∧ ({[2]} : gset Z)
      = list_to_set
          (pga_add_games_bulk (db (sync_over [doom_local])) batch).2
    ∧ Forall2 copies_remote_fields batch
        (missing_games {[VStr "quake"]} [doom_remaster; quake_published]).
Proof.
  apply (missing_batch_copies_remote {[VStr "quake"]}
           [doom_remaster; quake_published] (sync_over [doom_local])).
  - apply (bool_decide_unpack _). vm_compute. exact I.
  - vm_compute. reflexivity.
Defined.

Lemma sync_from_remote_slug_error_witness :
  sync_from_remote (inl FetchError) slugless_library
  = inl (KeyError "slug").
Proof.
  apply (sync_from_remote_slug_error (inl FetchError) slugless_library).
  apply Exists_cons_hd. vm_compute. reflexivity.
Defined.

Lemma library_reloaded_iff_added_witness :
  library (world_after (catalog_remote (sync_over [doom_local]))
             (sync_over [doom_local]))
  = if bool_decide (({[2]} : gset Z) = ∅)
    then library (sync_over [doom_local])
    else pga_get_games
           (db (world_after (catalog_remote (sync_over [doom_local]))
                  (sync_over [doom_local]))).
Proof.
  apply (library_reloaded_iff_added (inr [doom_newer; quake_published])
           (sync_over [doom_local]) {[2]} {[1]}).
  vm_compute. reflexivity.
Defined.

Lemma sync_from_remote_requests_witness :
  ∃ pre evs,
    trace (world_after (catalog_remote (sync_over [doom_local]))
             (sync_over [doom_local]))
    = trace (sync_over [doom_local]) ++ pre ++ evs
    ∧ Forall (details_event_of
                (catalog_of (inr [doom_newer; quake_published]))) evs
    ∧ ((pre = []
        ∧ ∀ game, game ∈ catalog_of (inr [doom_newer; quake_published]) →
            slug_of game ∈ slug_of <$> library (sync_over [doom_local]))
       ∨ ((∃ batch, pre = [EAddGamesBulk batch])
          ∧ ∃ game, game ∈ catalog_of (inr [doom_newer; quake_published])
                    ∧ slug_of game
                      ∉ slug_of <$> library (sync_over [doom_local]))).
Proof.
  apply (sync_from_remote_requests (inr [doom_newer; quake_published])
           (sync_over [doom_local]) {[2]} {[1]}).
  vm_compute. reflexivity.
Defined.

Lemma sync_all_phases_witness :
  ∃ w1 evs,
    sync_from_remote (inr [doom_newer; quake_published])
      (sync_over [doom_local])
    = inr (({[2]}, {[1]}), w1)
    ∧ library w1 = (if bool_decide (({[2]} : gset Z) = ∅)
                    then library (sync_over [doom_local])
                    else pga_get_games (db w1))
    ∧ library (world_after (catalog_pass (sync_over [doom_local]))
                 (sync_over [doom_local]))
      = library w1
    ∧ trace (world_after (catalog_pass (sync_over [doom_local]))
               (sync_over [doom_local]))
      = trace w1 ++ evs
    ∧ Forall (mark_event_of (library w1)) evs
    ∧ ((∅ : gset Z, ∅ : gset Z) = (∅, ∅) ↔ evs = []).
Proof.
  apply (sync_all_phases (inr [doom_newer; quake_published]) steam_with_220
           absent_runner (sync_over [doom_local]) {[2]} {[1]} (∅, ∅)).
  vm_compute. reflexivity.
Defined.

Lemma sync_steam_local_without_steam_witness :
  sync_steam_local absent_runner absent_runner (sync_over [hl2_winesteam])
  = inr ((∅, ∅), sync_over [hl2_winesteam]).
Proof.
  apply (sync_steam_local_without_steam absent_runner absent_runner
           (sync_over [hl2_winesteam])).
  - reflexivity.
  - reflexivity.
  - constructor; [|constructor]. split_and!; vm_compute; eauto.
Defined.

Lemma sync_all_offline_without_steam_witness :
  sync_all (inl FetchError) absent_runner absent_runner
    (sync_over [hl2_winesteam])
  = inr (((∅, ∅), (∅, ∅)), sync_over [hl2_winesteam]).
Proof.
  apply (sync_all_offline_without_steam FetchError absent_runner
           absent_runner (sync_over [hl2_winesteam])).
  - reflexivity.
  - reflexivity.
  - constructor; [|constructor]. vm_compute. eauto.
  - constructor; [|constructor]. split_and!; vm_compute; eauto.
Defined.
